(** * Atlas packer: a shallow embedding of [src/utils/atlasPacker.ts] and
    [src/utils/packer.worker.ts], and the properties of the packing engine.

    Conventions of the embedding.
    - A JavaScript [number] that holds a coordinate, a size, a padding or a
      page index is an integer; it is modelled by [Z], where the additions,
      subtractions, products and comparisons of the source are exact.
    - The only non-integral number of the source is the [efficiency] of a
      page, a quotient of two integers scaled by 100.  It is modelled by
      [JsNumber]: the rational value of a double, or one of the special
      values that a division by zero produces.  The division and the
      multiplication round their exact result to the nearest double, ties
      to the even significand ([round_double]).  The exponent range of
      doubles is not modelled: the quotient of two integers that a double
      holds exactly, and its product by 100, stay far inside it.
    - Arrays are lists; [a[i]] is the lookup [a !! i], [a.splice(i, 1)] is
      [delete i a] and [a.push(v)] is [a ++ [v]].
    - A call of a function of the source either returns or throws; loops
      whose termination is not structural run on a budget of steps.  The
      three ways a modelled call can end make up [Outcome]; that budgets
      are never exhausted is proved, not assumed. *)

From Stdlib Require Import ZArith QArith Qround Qpower Lqa Lia String.
From stdpp Require Import base numbers option list sorting.

#[local] Open Scope Z_scope.

(** ** Outcomes of calls *)

Inductive Outcome (A : Type) : Type :=
  | Returned (a : A)
  | Thrown (err : string)
  | OutOfFuel.

Arguments Returned {A} a.
Arguments Thrown {A} err.
Arguments OutOfFuel {A}.

#[global] Instance Outcome_bind : MBind Outcome := λ A B k m,
  match m with
  | Returned a => k a
  | Thrown err => Thrown err
  | OutOfFuel => OutOfFuel
  end.

(** ** Numbers that are not integers *)

Inductive JsNumber : Type :=
  | Num (q : Q)
  | Infinity
  | NegInfinity
  | NaN.

(** The exponent of a positive number: the [e] with [2 ^ e <= q < 2 ^ (e + 1)]. *)
Definition log2_floor (q : Q) : Z :=
  let e0 := Z.log2 (Qnum q) - Z.log2 (Z.pos (Qden q)) in
  if Qle_bool (2 ^ e0) q then e0 else e0 - 1.

(** The nearest integer, the even one of the two at a tie. *)
Definition round_half_even (s : Q) : Z :=
  let f := Qfloor s in
  match (s - inject_Z f ?= 1 # 2)%Q with
  | Lt => f
  | Gt => f + 1
  | Eq => if Z.even f then f else f + 1
  end.

(** A positive number rounded to 53 significant bits: its significand,
    scaled into [2 ^ 52, 2 ^ 53), is rounded to an integer. *)
Definition round_positive (q : Q) : Q :=
  let e := log2_floor q in
  (inject_Z (round_half_even (q / 2 ^ (e - 52))) * 2 ^ (e - 52))%Q.

(** The double nearest to [q] (IEEE 754 binary64, round to nearest, ties to
    even). *)
Definition round_double (q : Q) : Q :=
  match Qnum q with
  | 0 => 0%Q
  | Z.pos _ => round_positive q
  | Z.neg _ => (- round_positive (- q))%Q
  end.

(** [a / b] for two integers. *)
Definition js_div (a b : Z) : JsNumber :=
  if b =? 0 then
    if a =? 0 then NaN else if 0 <? a then Infinity else NegInfinity
  else Num (round_double (inject_Z a / inject_Z b)).

(** [v * k] for a positive integer constant [k]. *)
Definition js_scale (v : JsNumber) (k : positive) : JsNumber :=
  match v with
  | Num q => Num (round_double (q * inject_Z (Z.pos k)))
  | other => other
  end.

(** ** Data model *)

(** Modelled from the spec: the module [../types], which declares
    [OptimizationTask], [PackedRect] and [AtlasPage], is not among the sources.
    A task is the spec's [PackItem]: an opaque identifier and the two
    dimensions the packer reads ([targetWidth], [targetHeight]); the fields
    of [PackedRect] and [AtlasPage] are those that [atlasPacker.ts] writes. *)
Record OptimizationTask : Type := {
  fileName : string;
  targetWidth : Z;
  targetHeight : Z
}.

Module Rect.
Record t : Type := mk { x : Z; y : Z; width : Z; height : Z }.
End Rect.

Module PackedRect.
Record t : Type := mk { x : Z; y : Z; w : Z; h : Z; task : OptimizationTask }.
End PackedRect.

Module AtlasPage.
Record t : Type := mk {
  id : Z;
  width : Z;
  height : Z;
  items : list PackedRect.t;
  efficiency : JsNumber
}.
End AtlasPage.

(** The score of [findBestNode]: [MAX_VALUE] is [Number.MAX_VALUE], the
    initial value of [bestScore], which no score computed from integer
    coordinates reaches. *)
Inductive Score : Type :=
  | Fit (shortSideFit : Z)
  | MAX_VALUE.

(** [shortSideFit < bestScore] *)
Definition score_lt (shortSideFit : Z) (bestScore : Score) : bool :=
  match bestScore with
  | MAX_VALUE => true
  | Fit best => shortSideFit <? best
  end.

(** ** class MaxRectsPacker *)

Module MaxRectsPacker.

Record t : Type := mk {
  width : Z;
  height : Z;
  padding : Z;
  freeRects : list Rect.t;
  packedRects : list PackedRect.t
}.

Definition new (width height padding : Z) : t :=
  {| width := width; height := height; padding := padding;
     freeRects := [Rect.mk 0 0 width height];
     packedRects := [] |}.

Definition with_freeRects (this : t) (l : list Rect.t) : t :=
  {| width := width this; height := height this; padding := padding this;
     freeRects := l; packedRects := packedRects this |}.

(** One iteration of the [for ... of] loop of [findBestNode]. *)
Definition findBestNode_step (w h : Z) (best : Score * Rect.t) (free : Rect.t)
  : Score * Rect.t :=
  if (w <=? Rect.width free) && (h <=? Rect.height free) then
    let leftoverHoriz := Z.abs (Rect.width free - w) in
    let leftoverVert := Z.abs (Rect.height free - h) in
    let shortSideFit := Z.min leftoverHoriz leftoverVert in
    if score_lt shortSideFit (fst best) then
      (Fit shortSideFit, Rect.mk (Rect.x free) (Rect.y free) w h)
    else best
  else best.

Definition findBestNode (this : t) (w h : Z) : Score * Rect.t :=
  fold_left (findBestNode_step w h) (freeRects this) (MAX_VALUE, Rect.mk 0 0 0 0).

Definition isContained (a b : Rect.t) : bool :=
  (Rect.x b <=? Rect.x a) && (Rect.y b <=? Rect.y a) &&
  (Rect.x a + Rect.width a <=? Rect.x b + Rect.width b) &&
  (Rect.y a + Rect.height a <=? Rect.y b + Rect.height b).

(** [splitFreeNode] pushes the new nodes on [this.freeRects] and returns a
    boolean: the list it takes and returns is that array. *)
Definition splitFreeNode (freeRects : list Rect.t) (freeNode usedNode : Rect.t)
  : list Rect.t * bool :=
  if (Rect.x freeNode + Rect.width freeNode <=? Rect.x usedNode) ||
     (Rect.x usedNode + Rect.width usedNode <=? Rect.x freeNode) ||
     (Rect.y freeNode + Rect.height freeNode <=? Rect.y usedNode) ||
     (Rect.y usedNode + Rect.height usedNode <=? Rect.y freeNode)
  then (freeRects, false)
  else
    let freeRects :=
      if (Rect.x usedNode <? Rect.x freeNode + Rect.width freeNode) &&
         (Rect.x freeNode <? Rect.x usedNode + Rect.width usedNode) then
        let freeRects :=
          if (Rect.y freeNode <? Rect.y usedNode) &&
             (Rect.y usedNode <? Rect.y freeNode + Rect.height freeNode) then
            freeRects ++ [Rect.mk (Rect.x freeNode) (Rect.y freeNode)
                            (Rect.width freeNode)
                            (Rect.y usedNode - Rect.y freeNode)]
          else freeRects in
        if Rect.y usedNode + Rect.height usedNode <? Rect.y freeNode + Rect.height freeNode then
          freeRects ++ [Rect.mk (Rect.x freeNode)
                          (Rect.y usedNode + Rect.height usedNode)
                          (Rect.width freeNode)
                          (Rect.y freeNode + Rect.height freeNode
                           - (Rect.y usedNode + Rect.height usedNode))]
        else freeRects
      else freeRects in
    let freeRects :=
      if (Rect.y usedNode <? Rect.y freeNode + Rect.height freeNode) &&
         (Rect.y freeNode <? Rect.y usedNode + Rect.height usedNode) then
        let freeRects :=
          if (Rect.x freeNode <? Rect.x usedNode) &&
             (Rect.x usedNode <? Rect.x freeNode + Rect.width freeNode) then
            freeRects ++ [Rect.mk (Rect.x freeNode) (Rect.y freeNode)
                            (Rect.x usedNode - Rect.x freeNode)
                            (Rect.height freeNode)]
          else freeRects in
        if Rect.x usedNode + Rect.width usedNode <? Rect.x freeNode + Rect.width freeNode then
          freeRects ++ [Rect.mk (Rect.x usedNode + Rect.width usedNode)
                          (Rect.y freeNode)
                          (Rect.x freeNode + Rect.width freeNode
                           - (Rect.x usedNode + Rect.width usedNode))
                          (Rect.height freeNode)]
        else freeRects
      else freeRects in
    (freeRects, true).

(** The loop of [placeRect], from index [i] on.  When [splitFreeNode]
    returns true the node at [i] is spliced out and [i--; i++] leaves the
    index where it is; the length is read again at each iteration, so the
    nodes pushed by [splitFreeNode] are visited too. *)
Fixpoint placeRect_loop (fuel : nat) (freeRects : list Rect.t) (i : nat) (rect : Rect.t)
  : Outcome (list Rect.t) :=
  match fuel with
  | O => OutOfFuel
  | S fuel =>
      match freeRects !! i with
      | None => Returned freeRects
      | Some freeNode =>
          let '(freeRects, split) := splitFreeNode freeRects freeNode rect in
          if split then placeRect_loop fuel (delete i freeRects) i rect
          else placeRect_loop fuel freeRects (S i) rect
      end
  end.

(** The two nested loops of [pruneFreeList], as one transition system on
    the array and the indices [i] and [j].
    - [j] past the end: the inner loop is over, [i++] and [j = i + 1];
    - [rect1] inside [rect2]: [splice(i, 1); i--; break], and the outer
      [i++] restores [i]; the inner loop restarts at [i + 1];
    - [rect2] inside [rect1]: [splice(j, 1); j--], and [j++] restores [j];
    - otherwise [j++].
    The outer loop ends when [i] is past the end. *)
Fixpoint pruneFreeList_loop (fuel : nat) (freeRects : list Rect.t) (i j : nat)
  : Outcome (list Rect.t) :=
  match fuel with
  | O => OutOfFuel
  | S fuel =>
      match freeRects !! i with
      | None => Returned freeRects
      | Some rect1 =>
          match freeRects !! j with
          | None => pruneFreeList_loop fuel freeRects (S i) (S (S i))
          | Some rect2 =>
              if isContained rect1 rect2 then
                pruneFreeList_loop fuel (delete i freeRects) i (S i)
              else if isContained rect2 rect1 then
                pruneFreeList_loop fuel (delete j freeRects) i j
              else pruneFreeList_loop fuel freeRects i (S j)
          end
      end
  end.

(** Steps that the loops are given: enough for every array (lemmas
    [placeRect_loop_returns] and [pruneFreeList_loop_returns]). *)
Definition placeRect_fuel (freeRects : list Rect.t) : nat :=
  S (5 * length freeRects).

Definition pruneFreeList_fuel (freeRects : list Rect.t) : nat :=
  S (S (length freeRects) * S (length freeRects)).

Definition pruneFreeList (this : t) : Outcome t :=
  l ← pruneFreeList_loop (pruneFreeList_fuel (freeRects this)) (freeRects this) 0 1;
  Returned (with_freeRects this l).

Definition placeRect (this : t) (rect : Rect.t) : Outcome t :=
  l ← placeRect_loop (placeRect_fuel (freeRects this)) (freeRects this) 0 rect;
  pruneFreeList (with_freeRects this l).

(** [insert] returns the new rectangle, or [None] for [null], and the
    packer as the call leaves it. *)
Definition insert (this : t) (task : OptimizationTask)
  : Outcome (option PackedRect.t * t) :=
  let requiredW := targetWidth task + padding this in
  let requiredH := targetHeight task + padding this in
  let bestNode := findBestNode this requiredW requiredH in
  match fst bestNode with
  | MAX_VALUE => Returned (None, this)
  | Fit _ =>
      let newRect :=
        PackedRect.mk (Rect.x (snd bestNode)) (Rect.y (snd bestNode))
                      (targetWidth task) (targetHeight task) task in
      this ← placeRect this (snd bestNode);
      Returned (Some newRect, this)
  end.

End MaxRectsPacker.

(** ** packAtlases *)

(** [Array.prototype.sort] with a comparator is a stable sort: an element
    goes before the first element that the comparator does not put before
    it.  [sort_insert cmp a l] inserts [a], which preceded every element of
    [l] in the array, into the sorted [l]. *)
Fixpoint sort_insert {A : Type} (cmp : A → A → Z) (a : A) (l : list A) : list A :=
  match l with
  | [] => [a]
  | b :: l' => if cmp a b <=? 0 then a :: b :: l' else b :: sort_insert cmp a l'
  end.

Definition js_sort {A : Type} (cmp : A → A → Z) (l : list A) : list A :=
  foldr (sort_insert cmp) [] l.

(** [(a, b) => b.targetHeight - a.targetHeight] *)
Definition byHeightDesc (a b : OptimizationTask) : Z :=
  targetHeight b - targetHeight a.

(** The payload of a call of [console.warn]. *)
Record ConsoleWarn : Type := { warn_message : string; warn_tasks : list OptimizationTask }.

(** The state of the [for (const task of remaining)] loop. *)
Record PassState : Type := {
  packer : MaxRectsPacker.t;
  pageItems : list PackedRect.t;
  didntFit : list OptimizationTask
}.

Definition oversized (maxSize : Z) (task : OptimizationTask) : bool :=
  (maxSize <? targetWidth task) || (maxSize <? targetHeight task).

Fixpoint packPage (maxSize : Z) (remaining : list OptimizationTask) (st : PassState)
  : Outcome PassState :=
  match remaining with
  | [] => Returned st
  | task :: remaining =>
      if oversized maxSize task then packPage maxSize remaining st
      else
        '(rect, packer) ← MaxRectsPacker.insert (packer st) task;
        match rect with
        | Some rect =>
            packPage maxSize remaining
              {| packer := packer; pageItems := pageItems st ++ [rect];
                 didntFit := didntFit st |}
        | None =>
            packPage maxSize remaining
              {| packer := packer; pageItems := pageItems st;
                 didntFit := didntFit st ++ [task] |}
        end
  end.

(** The three declarations that open the body of the [while] loop. *)
Definition pass_start (maxSize padding : Z) : PassState :=
  {| packer := MaxRectsPacker.new maxSize maxSize padding;
     pageItems := []; didntFit := [] |}.

Definition usedArea (pageItems : list PackedRect.t) : Z :=
  fold_left (fun usedArea p => usedArea + PackedRect.w p * PackedRect.h p) pageItems 0.

Definition pageEfficiency (maxSize : Z) (pageItems : list PackedRect.t) : JsNumber :=
  let totalArea := maxSize * maxSize in
  js_scale (js_div (usedArea pageItems) totalArea) 100.

(** The object pushed on [pages] at the end of a pass. *)
Definition page_of (currentPageIndex maxSize : Z) (pageItems : list PackedRect.t)
  : AtlasPage.t :=
  AtlasPage.mk currentPageIndex maxSize maxSize pageItems
               (pageEfficiency maxSize pageItems).

Definition stallMessage : string := "Packing stalled. Remaining items cannot be packed:".

(** The [while (remaining.length > 0)] loop; [pages] and [console] grow at
    their ends. *)
Fixpoint packAtlases_loop (fuel : nat) (maxSize padding : Z)
    (remaining : list OptimizationTask) (currentPageIndex : Z)
    (pages : list AtlasPage.t) : Outcome (list AtlasPage.t * list ConsoleWarn) :=
  match fuel with
  | O => OutOfFuel
  | S fuel =>
      match remaining with
      | [] => Returned (pages, [])
      | _ :: _ =>
          st ← packPage maxSize remaining (pass_start maxSize padding);
          let pages := pages ++ [page_of currentPageIndex maxSize (pageItems st)] in
          if (length (pageItems st) =? 0)%nat &&
             (length (didntFit st) =? length remaining)%nat then
            Returned (pages, [{| warn_message := stallMessage; warn_tasks := didntFit st |}])
          else packAtlases_loop fuel maxSize padding (didntFit st) (currentPageIndex + 1) pages
      end
  end.

(** A run of [packAtlases]: the pages it returns and what it wrote on the
    console. *)
Definition packAtlases_run (tasks : list OptimizationTask) (maxSize padding : Z)
  : Outcome (list AtlasPage.t * list ConsoleWarn) :=
  let sortedTasks := js_sort byHeightDesc tasks in
  packAtlases_loop (S (length sortedTasks)) maxSize padding sortedTasks 0 [].

Definition packAtlases (tasks : list OptimizationTask) (maxSize padding : Z)
  : Outcome (list AtlasPage.t) :=
  r ← packAtlases_run tasks maxSize padding;
  Returned (fst r).

(** ** packer.worker.ts *)

Module PackerMessage.
Record t : Type := mk {
  tasks : list OptimizationTask;
  maxSize : Z;
  padding : Z
}.
End PackerMessage.

Inductive Response : Type :=
  | Success (pages : list AtlasPage.t)
  | Failure (error : string).

Inductive WorkerEffect : Type :=
  | ConsoleError (label : string) (err : string)
  | PostMessage (r : Response).

(** [String(err)] of a thrown value; thrown values are carried as the text
    they convert to. *)
Definition String_of (err : string) : string := err.

(** The handler, over the packing function it calls: what it does, in
    order, and how the call of the handler itself ends. *)
Definition onmessage_with
    (pack : list OptimizationTask → Z → Z → Outcome (list AtlasPage.t))
    (data : PackerMessage.t) : Outcome (list WorkerEffect) :=
  match pack (PackerMessage.tasks data) (PackerMessage.maxSize data)
             (PackerMessage.padding data) with
  | Returned pages => Returned [PostMessage (Success pages)]
  | Thrown err =>
      Returned [ConsoleError "Worker Packing Error:" err;
                PostMessage (Failure (String_of err))]
  | OutOfFuel => OutOfFuel
  end.

Definition onmessage : PackerMessage.t → Outcome (list WorkerEffect) :=
  onmessage_with packAtlases.

(** ** AtlasPreviewModal, the component that calls packAtlases *)

(** Modelled from the spec: [../types] is not among the sources.  The modal
    reads two more fields of a task than the packer does, [originalWidth]
    and [originalHeight]; a task of the modal is a task of the packer
    together with these two fields. *)
Record AssetTask : Type := {
  asset : OptimizationTask;
  originalWidth : Z;
  originalHeight : Z
}.

(** [isOptimized ? t.targetWidth : t.originalWidth], and the same for the
    height. *)
Definition shownWidth (isOptimized : bool) (t : AssetTask) : Z :=
  if isOptimized then targetWidth (asset t) else originalWidth t.

Definition shownHeight (isOptimized : bool) (t : AssetTask) : Z :=
  if isOptimized then targetHeight (asset t) else originalHeight t.

(** The memo [oversizedAssets]. *)
Definition oversizedAssets (tasks : list AssetTask) (maxSize : Z) (isOptimized : bool)
  : list AssetTask :=
  filter (λ t,
            let w := shownWidth isOptimized t in
            let h := shownHeight isOptimized t in
            (maxSize <? w) || (maxSize <? h) = true) tasks.

(** [tasks.map(t => ({...t, targetWidth: ..., targetHeight: ...}))] *)
Definition packerTasks (tasks : list AssetTask) (isOptimized : bool)
  : list OptimizationTask :=
  (λ t, {| fileName := fileName (asset t);
           targetWidth := shownWidth isOptimized t;
           targetHeight := shownHeight isOptimized t |}) <$> tasks.

(** The call [packAtlases(packerTasks, maxSize, 2)] of the packing effect,
    with what it writes on the console. *)
Definition previewPack (tasks : list AssetTask) (maxSize : Z) (isOptimized : bool)
  : Outcome (list AtlasPage.t * list ConsoleWarn) :=
  packAtlases_run (packerTasks tasks isOptimized) maxSize 2.

(** The test of [activePage.items.find(...)] in [handleMouseMove]; the
    point is in canvas space, where the mouse position has been scaled to,
    and need not be integral. *)
Definition hit (canvasX canvasY : Q) (item : PackedRect.t) : bool :=
  Qle_bool (inject_Z (PackedRect.x item)) canvasX &&
  Qle_bool canvasX (inject_Z (PackedRect.x item + PackedRect.w item)) &&
  Qle_bool (inject_Z (PackedRect.y item)) canvasY &&
  Qle_bool canvasY (inject_Z (PackedRect.y item + PackedRect.h item)).

Definition found (items : list PackedRect.t) (canvasX canvasY : Q)
  : option PackedRect.t :=
  List.find (hit canvasX canvasY) items.






(** ** Vocabulary of the properties *)

Definition item (w h : Z) (name : string) : OptimizationTask :=
  {| fileName := name; targetWidth := w; targetHeight := h |}.

(** Two placements overlap when their open interiors meet: the usual test
    on axis-aligned boxes. *)
Definition overlap (a b : PackedRect.t) : Prop :=
  PackedRect.x a < PackedRect.x b + PackedRect.w b ∧
  PackedRect.x b < PackedRect.x a + PackedRect.w a ∧
  PackedRect.y a < PackedRect.y b + PackedRect.h b ∧
  PackedRect.y b < PackedRect.y a + PackedRect.h a.

Definition inside_page (page_size : Z) (a : PackedRect.t) : Prop :=
  0 ≤ PackedRect.x a ∧ 0 ≤ PackedRect.y a ∧
  PackedRect.x a + PackedRect.w a ≤ page_size ∧
  PackedRect.y a + PackedRect.h a ≤ page_size.

(** The test that opens [splitFreeNode], as a proposition: the two
    rectangles are apart along one axis. *)
Definition apart (a b : Rect.t) : Prop :=
  Rect.x a + Rect.width a ≤ Rect.x b ∨ Rect.x b + Rect.width b ≤ Rect.x a ∨
  Rect.y a + Rect.height a ≤ Rect.y b ∨ Rect.y b + Rect.height b ≤ Rect.y a.

Definition apartb (a b : Rect.t) : bool :=
  (Rect.x a + Rect.width a <=? Rect.x b) || (Rect.x b + Rect.width b <=? Rect.x a) ||
  (Rect.y a + Rect.height a <=? Rect.y b) || (Rect.y b + Rect.height b <=? Rect.y a).

(** [a] lies within [b]: what [isContained a b] tests. *)
Definition within (a b : Rect.t) : Prop :=
  Rect.x b ≤ Rect.x a ∧ Rect.y b ≤ Rect.y a ∧
  Rect.x a + Rect.width a ≤ Rect.x b + Rect.width b ∧
  Rect.y a + Rect.height a ≤ Rect.y b + Rect.height b.

(** The nodes that [splitFreeNode] pushes when the used node meets the free
    node: top, bottom, left, right, in that order. *)
Definition residues (f u : Rect.t) : list Rect.t :=
  (if (Rect.x u <? Rect.x f + Rect.width f) && (Rect.x f <? Rect.x u + Rect.width u) then
     (if (Rect.y f <? Rect.y u) && (Rect.y u <? Rect.y f + Rect.height f) then
        [Rect.mk (Rect.x f) (Rect.y f) (Rect.width f) (Rect.y u - Rect.y f)]
      else []) ++
     (if Rect.y u + Rect.height u <? Rect.y f + Rect.height f then
        [Rect.mk (Rect.x f) (Rect.y u + Rect.height u) (Rect.width f)
           (Rect.y f + Rect.height f - (Rect.y u + Rect.height u))]
      else [])
   else []) ++
  (if (Rect.y u <? Rect.y f + Rect.height f) && (Rect.y f <? Rect.y u + Rect.height u) then
     (if (Rect.x f <? Rect.x u) && (Rect.x u <? Rect.x f + Rect.width f) then
        [Rect.mk (Rect.x f) (Rect.y f) (Rect.x u - Rect.x f) (Rect.height f)]
      else []) ++
     (if Rect.x u + Rect.width u <? Rect.x f + Rect.width f then
        [Rect.mk (Rect.x u + Rect.width u) (Rect.y f)
           (Rect.x f + Rect.width f - (Rect.x u + Rect.width u)) (Rect.height f)]
      else [])
   else []).

(** The space a placement reserves: its footprint grown by the padding on
    the right and at the bottom. *)
Definition reserved (padding : Z) (a : PackedRect.t) : Rect.t :=
  Rect.mk (PackedRect.x a) (PackedRect.y a)
          (PackedRect.w a + padding) (PackedRect.h a + padding).

Definition in_page (page_size : Z) (f : Rect.t) : Prop :=
  within f (Rect.mk 0 0 page_size page_size).

(** A free region qualifies for a required footprint when it is at least
    as wide and as high. *)
Definition qualifies (requiredW requiredH : Z) (f : Rect.t) : Prop :=
  requiredW ≤ Rect.width f ∧ requiredH ≤ Rect.height f.

(** Best Short Side Fit: the smaller of the two leftovers. *)
Definition shortSideFit (requiredW requiredH : Z) (f : Rect.t) : Z :=
  Z.min (Z.abs (Rect.width f - requiredW)) (Z.abs (Rect.height f - requiredH)).

(** [f], at index [i] of the scan, is the qualifying region of least score,
    and the first of the scan with that score. *)
Definition best_fit (requiredW requiredH : Z) (l : list Rect.t) (i : nat) (f : Rect.t)
  : Prop :=
  l !! i = Some f ∧ qualifies requiredW requiredH f ∧
  ∀ j g, l !! j = Some g → qualifies requiredW requiredH g →
    shortSideFit requiredW requiredH f ≤ shortSideFit requiredW requiredH g ∧
    ((j < i)%nat → shortSideFit requiredW requiredH f < shortSideFit requiredW requiredH g).

(** What holds of the packer and of the placements of a page throughout a
    pass: free nodes lie in the page and are apart from the space reserved
    by every placement; reserved spaces lie in the page and are apart from
    each other. *)
Record pass_inv (page_size pad : Z) (st : PassState) : Prop := {
  inv_padding : MaxRectsPacker.padding (packer st) = pad;
  inv_free_in_page : Forall (in_page page_size) (MaxRectsPacker.freeRects (packer st));
  inv_free_apart : ∀ f r,
    f ∈ MaxRectsPacker.freeRects (packer st) → r ∈ pageItems st →
    apart f (reserved pad r);
  inv_items_apart : ∀ i j a b,
    (i < j)%nat → pageItems st !! i = Some a → pageItems st !! j = Some b →
    apart (reserved pad a) (reserved pad b);
  inv_items_in_page : Forall (λ r, in_page page_size (reserved pad r)) (pageItems st)
}.

(** A placement records its task and the task's own dimensions. *)
Definition records_task (maxSize : Z) (r : PackedRect.t) : Prop :=
  oversized maxSize (PackedRect.task r) = false ∧
  PackedRect.w r = targetWidth (PackedRect.task r) ∧
  PackedRect.h r = targetHeight (PackedRect.task r).

(** The passes of a run, one per page: the first pass takes the sorted
    tasks, each later pass takes the tasks that did not fit in the pass
    before it.  The run ends when no task remains, or with the warning of a
    pass that placed nothing and skipped nothing. *)
Inductive passes (maxSize padding : Z)
  : list OptimizationTask → Z → list AtlasPage.t → list ConsoleWarn → Prop :=
  | passes_done idx : passes maxSize padding [] idx [] []
  | passes_stall remaining idx st :
      remaining ≠ [] →
      packPage maxSize remaining (pass_start maxSize padding) = Returned st →
      pageItems st = [] →
      length (didntFit st) = length remaining →
      passes maxSize padding remaining idx
        [page_of idx maxSize (pageItems st)]
        [{| warn_message := stallMessage; warn_tasks := didntFit st |}]
  | passes_next remaining idx st pages console :
      remaining ≠ [] →
      packPage maxSize remaining (pass_start maxSize padding) = Returned st →
      ¬ (pageItems st = [] ∧ length (didntFit st) = length remaining) →
      passes maxSize padding (didntFit st) (idx + 1) pages console →
      passes maxSize padding remaining idx
        (page_of idx maxSize (pageItems st) :: pages) console.

(** The tasks placed on the pages, page after page, and the tasks named in
    the warnings. *)
Definition placed_tasks (pages : list AtlasPage.t) : list OptimizationTask :=
  pages ≫= λ page, PackedRect.task <$> AtlasPage.items page.

Definition dropped_tasks (console : list ConsoleWarn) : list OptimizationTask :=
  console ≫= warn_tasks.

(** Nodes apart from the used node stay, in order; the residues of the
    others follow, in order. *)
Definition placed_free (u : Rect.t) (l : list Rect.t) : list Rect.t :=
  filter (λ f, apartb f u = true) l ++
  flat_map (λ f, residues f u) (filter (λ f, apartb f u = false) l).

(** The responses posted, in order. *)
Definition responses (effects : list WorkerEffect) : list Response :=
  omap (λ e, match e with PostMessage r => Some r | ConsoleError _ _ => None end) effects.

(** The order of [sortedTasks]. *)
Definition taller_first (a b : OptimizationTask) : Prop :=
  targetHeight b ≤ targetHeight a.

(** What the body of the [for] loop does with one task: [before] and
    [after] are the packer, the placements and the carried-over tasks
    before and after it. *)
Definition attempt (maxSize : Z) (task : OptimizationTask)
    (before after : PassState) : Prop :=
  if oversized maxSize task then after = before
  else
    ∃ rect pk,
      MaxRectsPacker.insert (packer before) task = Returned (rect, pk) ∧
      packer after = pk ∧
      match rect with
      | Some r =>
          PackedRect.task r = task ∧
          pageItems after = pageItems before ++ [r] ∧
          didntFit after = didntFit before
      | None =>
          pageItems after = pageItems before ∧
          didntFit after = didntFit before ++ [task]
      end.





(** The unit cell at [(px, py)] lies in a rectangle. *)
Definition covers (r : Rect.t) (px py : Z) : Prop :=
  (Rect.x r ≤ px < Rect.x r + Rect.width r) ∧
  (Rect.y r ≤ py < Rect.y r + Rect.height r).

(** No rectangle of the list is contained in another one. *)
Definition no_contained (l : list Rect.t) : Prop :=
  ∀ a b ra rb, a ≠ b → l !! a = Some ra → l !! b = Some rb →
               MaxRectsPacker.isContained ra rb = false.

(** The pairs of nodes that the two loops have compared when they stand at
    [i] and [j]. *)
Definition compared (l : list Rect.t) (i j : nat) : Prop :=
  (∀ a b ra rb, (a < i)%nat → (a < b)%nat → l !! a = Some ra → l !! b = Some rb →
     MaxRectsPacker.isContained ra rb = false ∧
     MaxRectsPacker.isContained rb ra = false) ∧
  (∀ b ri rb, (i < b < j)%nat → l !! i = Some ri → l !! b = Some rb →
     MaxRectsPacker.isContained ri rb = false ∧
     MaxRectsPacker.isContained rb ri = false).

(** Every cell of the page that no placement reserves lies in a free
    node. *)
Definition uncovered_free (page_size pad : Z) (st : PassState) : Prop :=
  ∀ px py, 0 ≤ px < page_size → 0 ≤ py < page_size →
    (∀ a, a ∈ pageItems st → ¬ covers (reserved pad a) px py) →
    ∃ f, f ∈ MaxRectsPacker.freeRects (packer st) ∧ covers f px py.

(** No task that did not fit qualifies for a free node. *)
Definition still_unfit (pad : Z) (st : PassState) : Prop :=
  ∀ t f, t ∈ didntFit st → f ∈ MaxRectsPacker.freeRects (packer st) →
    ¬ qualifies (targetWidth t + pad) (targetHeight t + pad) f.

(** The packer of a pass keeps the size it was made with, records nothing in
    [packedRects], and its free nodes have a positive width and height, none
    of them contained in another. *)
Record packer_proper (page_size : Z) (this : MaxRectsPacker.t) : Prop := {
  proper_width : MaxRectsPacker.width this = page_size;
  proper_height : MaxRectsPacker.height this = page_size;
  proper_packedRects : MaxRectsPacker.packedRects this = [];
  proper_positive :
    Forall (λ f, 0 < Rect.width f ∧ 0 < Rect.height f) (MaxRectsPacker.freeRects this);
  proper_no_contained : no_contained (MaxRectsPacker.freeRects this)
}.

(** ** Outcomes *)

Lemma bind_Returned {A B} (m : Outcome A) (k : A → Outcome B) b :
  m ≫= k = Returned b ↔ ∃ a, m = Returned a ∧ k a = Returned b.
Proof.
  destruct m; simpl; split; try (intros [? [? ?]]); try discriminate; eauto.
  intros. congruence.
Qed.

(** ** Tactics *)

Ltac bool_hyps :=
  repeat match goal with
         | H : _ && _ = true |- _ => apply andb_true_iff in H; destruct H
         | H : _ && _ = false |- _ => apply andb_false_iff in H
         | H : _ || _ = true |- _ => apply orb_true_iff in H
         | H : _ || _ = false |- _ => apply orb_false_iff in H; destruct H
         | H : (_ <? _) = true |- _ => apply Z.ltb_lt in H
         | H : (_ <? _) = false |- _ => apply Z.ltb_ge in H
         | H : (_ <=? _) = true |- _ => apply Z.leb_le in H
         | H : (_ <=? _) = false |- _ => apply Z.leb_gt in H
         end.

Ltac rect_simpl :=
  cbn [Rect.x Rect.y Rect.width Rect.height
       PackedRect.x PackedRect.y PackedRect.w PackedRect.h PackedRect.task] in *.

Ltac split_ifs :=
  repeat match goal with
         | |- context [if ?b then _ else _] => destruct b eqn:?
         end.

Ltac Forall_list :=
  rewrite ?app_nil_r, ?app_nil_l;
  repeat first [ apply Forall_nil_2 | apply Forall_cons_2 | apply Forall_app_2 ].

(** ** splitFreeNode *)

Import MaxRectsPacker.

Lemma apartb_spec a b : apartb a b = true ↔ apart a b.
Proof.
  unfold apartb, apart. rewrite !orb_true_iff, !Z.leb_le. tauto.
Qed.

Lemma apartb_false a b : apartb a b = false ↔ ¬ apart a b.
Proof. rewrite <- apartb_spec. destruct (apartb a b); split; congruence. Qed.

Lemma apart_sym a b : apart a b → apart b a.
Proof. unfold apart. tauto. Qed.

Lemma apart_within a a' b : apart a b → within a' a → apart a' b.
Proof. unfold apart, within. lia. Qed.


Lemma splitFreeNode_eq l f u :
  splitFreeNode l f u =
    if apartb f u then (l, false) else (l ++ residues f u, true).
Proof.
  unfold splitFreeNode, apartb, residues.
  destruct (_ || _); [reflexivity|].
  repeat match goal with
         | |- context [if ?b then _ else _] => destruct b
         end; rewrite <- ?app_assoc, ?app_nil_r; reflexivity.
Qed.

Lemma residues_apart f u : Forall (λ r, apart r u) (residues f u).
Proof.
  unfold residues. split_ifs; bool_hyps; Forall_list; unfold apart; rect_simpl; lia.
Qed.

Lemma residues_within f u : ¬ apart f u → Forall (λ r, within r f) (residues f u).
Proof.
  unfold residues, apart. intros Hna.
  split_ifs; bool_hyps; Forall_list; unfold within; rect_simpl; lia.
Qed.

Lemma residues_length f u : (length (residues f u) ≤ 4)%nat.
Proof.
  unfold residues. split_ifs; rewrite ?length_app; cbn [length]; lia.
Qed.

(** ** Lists *)

Lemma filter_all {A} (P : A → Prop) `{∀ x, Decision (P x)} (l : list A) :
  Forall P l → filter P l = l.
Proof.
  induction 1 as [|x l Hx _ IH]; [reflexivity|].
  by rewrite filter_cons_True, IH.
Qed.

Lemma filter_none {A} (P : A → Prop) `{∀ x, Decision (P x)} (l : list A) :
  Forall (λ x, ¬ P x) l → filter P l = [].
Proof.
  induction 1 as [|x l Hx _ IH]; [reflexivity|].
  by rewrite filter_cons_False.
Qed.

(** ** placeRect: the loop in closed form *)

Lemma placeRect_loop_closed u fuel : ∀ pre suf,
  (4 * length (filter (λ f, apartb f u = false) suf) + length suf < fuel)%nat →
  placeRect_loop fuel (pre ++ suf) (length pre) u = Returned (pre ++ placed_free u suf).
Proof.
  induction fuel as [|fuel IH]; intros pre suf Hfuel; [lia|].
  cbn [placeRect_loop].
  destruct suf as [|f suf].
  - rewrite app_nil_r, lookup_ge_None_2 by lia.
    unfold placed_free. rewrite !filter_nil. cbn [flat_map app].
    by rewrite app_nil_r.
  - rewrite list_lookup_middle by reflexivity.
    rewrite splitFreeNode_eq. unfold placed_free.
    rewrite !filter_cons in *.
    destruct (apartb f u) eqn:Hfu.
    + rewrite decide_True in * by reflexivity.
      rewrite decide_False in * by discriminate.
      specialize (IH (pre ++ [f]) suf).
      rewrite length_app, Nat.add_1_r, <- app_assoc in IH. cbn [app] in IH.
      rewrite IH by (cbn [length] in Hfuel; lia).
      rewrite <- !app_assoc. reflexivity.
    + rewrite decide_False in * by discriminate.
      rewrite decide_True in * by reflexivity.
      rewrite <- app_assoc. cbn [app].
      rewrite delete_middle.
      pose proof (residues_apart f u) as Hap.
      pose proof (residues_length f u) as Hlen.
      assert (Hk : filter (λ f0, apartb f0 u = true) (residues f u) = residues f u).
      { apply filter_all. eapply Forall_impl; [exact Hap|]. intros r. apply apartb_spec. }
      assert (Hn : filter (λ f0, apartb f0 u = false) (residues f u) = []).
      { apply filter_none. eapply Forall_impl; [exact Hap|].
        intros r Hr. cbn beta in Hr. apply apartb_spec in Hr. congruence. }
      rewrite (IH pre (suf ++ residues f u)).
      * unfold placed_free.
        rewrite !filter_app, Hk, Hn, app_nil_r. cbn [flat_map].
        rewrite <- !app_assoc. reflexivity.
      * rewrite filter_app, Hn, app_nil_r, length_app.
        cbn [length] in Hfuel. lia.
Qed.

Lemma placeRect_loop_returns u l :
  placeRect_loop (placeRect_fuel l) l 0 u = Returned (placed_free u l).
Proof.
  apply (placeRect_loop_closed u (placeRect_fuel l) [] l).
  unfold placeRect_fuel.
  pose proof (length_filter (λ f, apartb f u = false) l). lia.
Qed.

(** Every free node left by [placeRect]'s loop lies within a node that was
    free before, and is apart from the used node. *)
Lemma placed_free_spec u l :
  Forall (λ f', apart f' u ∧ ∃ f, f ∈ l ∧ within f' f) (placed_free u l).
Proof.
  unfold placed_free. apply Forall_app_2.
  - apply Forall_forall. intros f [Hf Hin]%list_elem_of_filter.
    split; [by apply apartb_spec|]. exists f. split; [done|]. unfold within. lia.
  - apply Forall_forall. intros r Hr.
    apply list_elem_of_In, in_flat_map in Hr as (f & Hf & Hr).
    apply list_elem_of_In, list_elem_of_filter in Hf as [Hf Hin].
    apply list_elem_of_In in Hr.
    split.
    + pose proof (residues_apart f u) as H. rewrite Forall_forall in H. by apply H.
    + exists f. split; [done|].
      pose proof (residues_within f u) as H. rewrite Forall_forall in H.
      apply H; [by apply apartb_false|done].
Qed.

(** ** pruneFreeList terminates and only removes nodes *)

Lemma pruneFreeList_loop_returns fuel : ∀ l i j,
  ((length l - i) * S (length l) + (S (length l) - j) < fuel)%nat →
  ∃ l', pruneFreeList_loop fuel l i j = Returned l' ∧ l' `sublist_of` l.
Proof.
  induction fuel as [|fuel IH]; intros l i j Hfuel; [by apply Nat.nlt_0_r in Hfuel|].
  cbn [pruneFreeList_loop].
  destruct (l !! i) as [rect1|] eqn:Hi; [|by eexists].
  pose proof (lookup_lt_Some _ _ _ Hi) as Hilt.
  destruct (l !! j) as [rect2|] eqn:Hj.
  - pose proof (lookup_lt_Some _ _ _ Hj) as Hjlt.
    destruct (isContained rect1 rect2).
    + destruct (IH (delete i l) i (S i)) as (l' & -> & Hsub).
      { rewrite length_delete by eauto. nia. }
      eexists. split; [done|]. etrans; [done|apply sublist_delete].
    + destruct (isContained rect2 rect1).
      * destruct (IH (delete j l) i j) as (l' & -> & Hsub).
        { rewrite length_delete by eauto. nia. }
        eexists. split; [done|]. etrans; [done|apply sublist_delete].
      * apply IH. nia.
  - apply IH. nia.
Qed.

Lemma pruneFreeList_returns this :
  ∃ l', pruneFreeList this = Returned (with_freeRects this l') ∧
        l' `sublist_of` freeRects this.
Proof.
  unfold pruneFreeList.
  destruct (pruneFreeList_loop_returns (pruneFreeList_fuel (freeRects this))
              (freeRects this) 0 1) as (l' & -> & Hsub).
  { unfold pruneFreeList_fuel. nia. }
  by exists l'.
Qed.

Lemma placeRect_returns this rect :
  ∃ l', placeRect this rect = Returned (with_freeRects this l') ∧
        l' `sublist_of` placed_free rect (freeRects this).
Proof.
  unfold placeRect. rewrite placeRect_loop_returns.
  destruct (pruneFreeList_returns (with_freeRects this (placed_free rect (freeRects this))))
    as (l' & Hl' & Hsub).
  exists l'. split; [|exact Hsub].
  unfold mbind, Outcome_bind. rewrite Hl'. reflexivity.
Qed.

(** ** findBestNode and insert *)

Lemma findBestNode_step_qualifies w h best free :
  qualifies w h free →
  findBestNode_step w h best free =
    if score_lt (shortSideFit w h free) (fst best)
    then (Fit (shortSideFit w h free), Rect.mk (Rect.x free) (Rect.y free) w h)
    else best.
Proof.
  intros [Hw Hh]. unfold findBestNode_step.
  apply Z.leb_le in Hw, Hh. rewrite Hw, Hh. reflexivity.
Qed.

Lemma findBestNode_step_not_qualifies w h best free :
  ¬ qualifies w h free → findBestNode_step w h best free = best.
Proof.
  intros Hq. unfold findBestNode_step.
  destruct (w <=? Rect.width free) eqn:Hw; [|reflexivity].
  destruct (h <=? Rect.height free) eqn:Hh; [|reflexivity].
  exfalso. apply Hq. split; by apply Z.leb_le.
Qed.

Lemma qualifies_dec w h f : {qualifies w h f} + {¬ qualifies w h f}.
Proof.
  unfold qualifies.
  destruct (Z_le_dec w (Rect.width f)), (Z_le_dec h (Rect.height f)); intuition.
Qed.

Lemma findBestNode_fold w h (l : list Rect.t) :
  (fold_left (findBestNode_step w h) l (MAX_VALUE, Rect.mk 0 0 0 0)
     = (MAX_VALUE, Rect.mk 0 0 0 0)
   ∧ Forall (λ f, ¬ qualifies w h f) l)
  ∨ (∃ i f, best_fit w h l i f ∧
       fold_left (findBestNode_step w h) l (MAX_VALUE, Rect.mk 0 0 0 0)
         = (Fit (shortSideFit w h f), Rect.mk (Rect.x f) (Rect.y f) w h)).
Proof.
  induction l as [|a l IH] using rev_ind; [left; by split|].
  rewrite fold_left_app. cbn [fold_left].
  destruct (qualifies_dec w h a) as [Hq|Hq].
  - rewrite findBestNode_step_qualifies by done. right.
    destruct IH as [[-> Hnone]|(i & f & (Hi & Hqf & Hmin) & ->)]; cbn [fst score_lt].
    + exists (length l), a. split; [|done].
      split; [by apply list_lookup_middle|]. split; [done|].
      intros j g Hj Hg.
      destruct (decide (j < length l)%nat) as [Hlt|Hge].
      * rewrite lookup_app_l in Hj by done.
        rewrite Forall_forall in Hnone. exfalso. eapply Hnone; [|done].
        by eapply list_elem_of_lookup_2.
      * pose proof (lookup_lt_Some _ _ _ Hj) as Hb. rewrite length_app in Hb. cbn in Hb.
        assert (j = length l) as -> by lia.
        rewrite list_lookup_middle in Hj by done. injection Hj as <-. lia.
    + pose proof (lookup_lt_Some _ _ _ Hi) as Hil.
      destruct (shortSideFit w h a <? shortSideFit w h f) eqn:Hlt.
      * apply Z.ltb_lt in Hlt.
        exists (length l), a. split; [|done].
        split; [by apply list_lookup_middle|]. split; [done|].
        intros j g Hj Hg.
        destruct (decide (j < length l)%nat) as [Hjl|Hge].
        -- rewrite lookup_app_l in Hj by done.
           destruct (Hmin j g Hj Hg). lia.
        -- pose proof (lookup_lt_Some _ _ _ Hj) as Hb. rewrite length_app in Hb. cbn in Hb.
           assert (j = length l) as -> by lia.
           rewrite list_lookup_middle in Hj by done. injection Hj as <-. lia.
      * apply Z.ltb_ge in Hlt.
        exists i, f. split; [|done].
        split; [by rewrite lookup_app_l|]. split; [done|].
        intros j g Hj Hg.
        destruct (decide (j < length l)%nat) as [Hjl|Hge].
        -- rewrite lookup_app_l in Hj by done. by apply Hmin.
        -- pose proof (lookup_lt_Some _ _ _ Hj) as Hb. rewrite length_app in Hb. cbn in Hb.
           assert (j = length l) as -> by lia.
           rewrite list_lookup_middle in Hj by done. injection Hj as <-. lia.
  - rewrite findBestNode_step_not_qualifies by done.
    destruct IH as [[-> Hnone]|(i & f & (Hi & Hqf & Hmin) & ->)].
    + left. split; [done|]. apply Forall_app_2; [done|]. by constructor.
    + right. pose proof (lookup_lt_Some _ _ _ Hi) as Hil.
      exists i, f. split; [|done].
      split; [by rewrite lookup_app_l|]. split; [done|].
      intros j g Hj Hg.
      destruct (decide (j < length l)%nat) as [Hjl|Hge].
      * rewrite lookup_app_l in Hj by done. by apply Hmin.
      * pose proof (lookup_lt_Some _ _ _ Hj) as Hb. rewrite length_app in Hb. cbn in Hb.
        assert (j = length l) as -> by lia.
        rewrite list_lookup_middle in Hj by done. injection Hj as <-. done.
Qed.

(** What a call of [insert] does, in full. *)
Lemma insert_cases this task :
  let requiredW := targetWidth task + padding this in
  let requiredH := targetHeight task + padding this in
  (Forall (λ f, ¬ qualifies requiredW requiredH f) (freeRects this) ∧
   insert this task = Returned (None, this))
  ∨ (∃ i f l',
       best_fit requiredW requiredH (freeRects this) i f ∧
       l' `sublist_of`
         placed_free (Rect.mk (Rect.x f) (Rect.y f) requiredW requiredH) (freeRects this) ∧
       insert this task =
         Returned (Some (PackedRect.mk (Rect.x f) (Rect.y f)
                           (targetWidth task) (targetHeight task) task),
                   with_freeRects this l')).
Proof.
  intros requiredW requiredH. unfold insert, findBestNode.
  fold requiredW requiredH.
  destruct (findBestNode_fold requiredW requiredH (freeRects this))
    as [[-> Hnone]|(i & f & Hbest & ->)]; cbn [fst snd].
  - left. by split.
  - right.
    destruct (placeRect_returns this (Rect.mk (Rect.x f) (Rect.y f) requiredW requiredH))
      as (l' & Hl' & Hsub).
    exists i, f, l'. split; [done|]. split; [done|].
    unfold mbind, Outcome_bind. rewrite Hl'. reflexivity.
Qed.

(** ** One pass over the remaining tasks *)

Lemma within_trans a b c : within a b → within b c → within a c.
Proof. unfold within. lia. Qed.

Lemma pass_start_inv page_size pad : pass_inv page_size pad (pass_start page_size pad).
Proof.
  split; cbn.
  - reflexivity.
  - repeat constructor; cbn; lia.
  - intros f r _ Hr. by apply elem_of_nil in Hr.
  - intros i j a b _ Hi. by rewrite lookup_nil in Hi.
  - constructor.
Qed.

Lemma insert_inv page_size pad st task r pk :
  pass_inv page_size pad st →
  insert (packer st) task = Returned (Some r, pk) →
  pass_inv page_size pad
    {| packer := pk; pageItems := pageItems st ++ [r]; didntFit := didntFit st |}.
Proof.
  intros [Hpad Hin Hfa Hia Hip] Hins.
  destruct (insert_cases (packer st) task) as [[_ Heq]|(i & f & l' & Hbest & Hsub & Heq)];
    rewrite Heq in Hins; [discriminate|].
  injection Hins as <- <-. rewrite Hpad in *.
  destruct Hbest as (Hi & [Hqw Hqh] & _).
  apply list_elem_of_lookup_2 in Hi.
  set (u := Rect.mk (Rect.x f) (Rect.y f) (targetWidth task + pad) (targetHeight task + pad)) in *.
  assert (Hu : within u f) by (unfold within, u; cbn; lia).
  assert (Hl' : Forall (λ f', apart f' u ∧
                         ∃ f0, f0 ∈ freeRects (packer st) ∧ within f' f0) l').
  { apply Forall_forall. intros f' Hf'.
    pose proof (placed_free_spec u (freeRects (packer st))) as H.
    rewrite Forall_forall in H. apply H. by eapply elem_of_sublist. }
  rewrite Forall_forall in Hl'. rewrite Forall_forall in Hin. rewrite Forall_forall in Hip.
  split; cbn [packer pageItems didntFit freeRects with_freeRects padding].
  - done.
  - apply Forall_forall. intros f' Hf'.
    destruct (Hl' f' Hf') as (_ & f0 & Hf0 & Hw).
    eapply within_trans; [done|]. by apply Hin.
  - intros f' r' Hf' [Hr'| ->%list_elem_of_singleton]%elem_of_app.
    + destruct (Hl' f' Hf') as (_ & f0 & Hf0 & Hw).
      eapply apart_within; [|done]. by apply Hfa.
    + by destruct (Hl' f' Hf') as (Ha & _).
  - clear i. intros i j a b Hij Ha Hb.
    pose proof (lookup_lt_Some _ _ _ Hb) as Hjl. rewrite length_app in Hjl. cbn in Hjl.
    rewrite lookup_app_l in Ha by lia.
    destruct (decide (j < length (pageItems st))%nat) as [Hlt|Hge].
    + rewrite lookup_app_l in Hb by done. exact (Hia i j a b Hij Ha Hb).
    + assert (j = length (pageItems st)) as -> by lia.
      rewrite list_lookup_middle in Hb by done. injection Hb as <-.
      apply apart_sym. eapply (apart_within f); [|exact Hu].
      apply Hfa; [done|]. by eapply list_elem_of_lookup_2.
  - apply Forall_app_2; [by apply Forall_forall|].
    constructor; [|constructor].
    eapply within_trans; [exact Hu|]. by apply Hin.
Qed.

Lemma packPage_inv page_size pad maxSize remaining : ∀ st st',
  pass_inv page_size pad st →
  packPage maxSize remaining st = Returned st' →
  pass_inv page_size pad st'.
Proof.
  induction remaining as [|task remaining IH]; intros st st' Hinv Hrun; cbn in Hrun.
  - by injection Hrun as <-.
  - destruct (oversized maxSize task); [by eapply IH|].
    apply bind_Returned in Hrun as ([rect pk] & Hins & Hrun).
    destruct rect as [rect|].
    + eapply IH; [|exact Hrun]. by eapply insert_inv.
    + eapply IH; [|exact Hrun].
      destruct (insert_cases (packer st) task) as [[_ Heq]|(i & f & l' & _ & _ & Heq)];
        rewrite Heq in Hins; [|discriminate].
      injection Hins as <-. by destruct Hinv.
Qed.

(** A pass returns; it appends to the placements and to the tasks that did
    not fit, both in the order of the tasks; a task is placed, or did not
    fit, or is oversized. *)
Lemma packPage_spec maxSize remaining : ∀ st,
  ∃ placed failed pk,
    packPage maxSize remaining st =
      Returned {| packer := pk; pageItems := pageItems st ++ placed;
                  didntFit := didntFit st ++ failed |} ∧
    PackedRect.task <$> placed `sublist_of` remaining ∧
    failed `sublist_of` remaining ∧
    (PackedRect.task <$> placed) ++ failed ++
      filter (λ t, oversized maxSize t = true) remaining ≡ₚ remaining ∧
    Forall (records_task maxSize) placed ∧
    Forall (λ t, oversized maxSize t = false) failed.
Proof.
  induction remaining as [|task remaining IH]; intros st; cbn [packPage].
  - exists [], [], (packer st). rewrite !app_nil_r. destruct st. by repeat split.
  - destruct (oversized maxSize task) eqn:Hov.
    + destruct (IH st) as (placed & failed & pk & -> & Hp & Hf & Hperm & Hrec & Hnov).
      exists placed, failed, pk. split; [done|].
      split; [by apply sublist_cons|]. split; [by apply sublist_cons|].
      split; [|done].
      rewrite filter_cons_True by done.
      rewrite !app_assoc, <- Permutation_middle, <- !app_assoc. by constructor.
    + rewrite filter_cons_False by congruence.
      destruct (insert_cases (packer st) task)
        as [[_ ->]|(i & f & l' & _ & _ & ->)]; cbn [mbind Outcome_bind].
      * destruct (IH {| packer := packer st; pageItems := pageItems st;
                        didntFit := didntFit st ++ [task] |})
          as (placed & failed & pk & -> & Hp & Hf & Hperm & Hrec & Hnov).
        cbn [pageItems didntFit].
        exists placed, (task :: failed), pk. rewrite <- app_assoc.
        split; [done|]. split; [by apply sublist_cons|]. split; [by apply sublist_skip|].
        split; [|by split; [|constructor]].
        rewrite <- app_comm_cons, <- Permutation_middle. by constructor.
      * set (r := PackedRect.mk _ _ _ _ _).
        destruct (IH {| packer := with_freeRects (packer st) l';
                        pageItems := pageItems st ++ [r];
                        didntFit := didntFit st |})
          as (placed & failed & pk & -> & Hp & Hf & Hperm & Hrec & Hnov).
        cbn [pageItems didntFit].
        exists (r :: placed), failed, pk. rewrite <- app_assoc.
        split; [done|]. split; [by apply sublist_skip|]. split; [by apply sublist_cons|].
        split; [by constructor|]. split; [|done].
        constructor; [|done]. by split.
Qed.

Lemma packPage_start maxSize padding remaining st :
  packPage maxSize remaining (pass_start maxSize padding) = Returned st →
  PackedRect.task <$> pageItems st `sublist_of` remaining ∧
  didntFit st `sublist_of` remaining ∧
  (PackedRect.task <$> pageItems st) ++ didntFit st ++
    filter (λ t, oversized maxSize t = true) remaining ≡ₚ remaining ∧
  Forall (records_task maxSize) (pageItems st) ∧
  Forall (λ t, oversized maxSize t = false) (didntFit st).
Proof.
  destruct (packPage_spec maxSize remaining (pass_start maxSize padding))
    as (placed & failed & pk & -> & H).
  intros [= <-]. exact H.
Qed.

Lemma packPage_returns maxSize remaining st :
  ∃ st', packPage maxSize remaining st = Returned st'.
Proof.
  destruct (packPage_spec maxSize remaining st) as (placed & failed & pk & -> & _).
  by eexists.
Qed.

(** ** The loop of packAtlases *)

Lemma didntFit_shorter maxSize padding remaining st :
  packPage maxSize remaining (pass_start maxSize padding) = Returned st →
  ¬ (pageItems st = [] ∧ length (didntFit st) = length remaining) →
  (length (didntFit st) < length remaining)%nat.
Proof.
  intros (_ & Hsub & Hperm & _)%packPage_start Hns.
  apply sublist_length in Hsub.
  apply Permutation_length in Hperm. rewrite !length_app, length_fmap in Hperm.
  destruct (pageItems st) as [|r rs] eqn:Hit.
  - destruct (decide (length (didntFit st) = length remaining)) as [Heq|Hne].
    + exfalso. by apply Hns.
    + lia.
  - cbn [length] in Hperm. lia.
Qed.

Lemma packAtlases_loop_passes maxSize padding fuel : ∀ remaining idx pages,
  (length remaining < fuel)%nat →
  ∃ new console,
    packAtlases_loop fuel maxSize padding remaining idx pages
      = Returned (pages ++ new, console) ∧
    passes maxSize padding remaining idx new console.
Proof.
  induction fuel as [|fuel IH]; intros remaining idx pages Hfuel; [lia|].
  cbn [packAtlases_loop].
  destruct remaining as [|task remaining].
  { exists [], []. rewrite app_nil_r. split; [done|constructor]. }
  destruct (packPage_returns maxSize (task :: remaining) (pass_start maxSize padding))
    as [st Hst].
  rewrite Hst. cbn [mbind Outcome_bind].
  destruct ((length (pageItems st) =? 0)%nat &&
            (length (didntFit st) =? length (task :: remaining))%nat) eqn:Hstall.
  - apply andb_true_iff in Hstall as [Hz%Nat.eqb_eq Hl%Nat.eqb_eq].
    apply nil_length_inv in Hz.
    eexists _, _. split; [done|].
    by apply passes_stall.
  - assert (Hns : ¬ (pageItems st = [] ∧
                     length (didntFit st) = length (task :: remaining))).
    { intros [Hz Hl]. rewrite Hz, Hl, !Nat.eqb_refl in Hstall. discriminate. }
    pose proof (didntFit_shorter _ _ _ _ Hst Hns) as Hlt.
    destruct (IH (didntFit st) (idx + 1)
                 (pages ++ [page_of idx maxSize (pageItems st)])) as (new & console & -> & Hp).
    { lia. }
    exists (page_of idx maxSize (pageItems st) :: new), console.
    split; [by rewrite <- app_assoc|].
    by apply passes_next.
Qed.

Lemma packAtlases_run_passes tasks maxSize padding :
  ∃ pages console,
    packAtlases_run tasks maxSize padding = Returned (pages, console) ∧
    passes maxSize padding (js_sort byHeightDesc tasks) 0 pages console.
Proof.
  unfold packAtlases_run.
  destruct (packAtlases_loop_passes maxSize padding
              (S (length (js_sort byHeightDesc tasks)))
              (js_sort byHeightDesc tasks) 0 []) as (new & console & Hrun & Hp); [lia|].
  exists new, console. by split.
Qed.

Lemma packAtlases_passes tasks maxSize padding :
  ∃ pages console,
    packAtlases tasks maxSize padding = Returned pages ∧
    passes maxSize padding (js_sort byHeightDesc tasks) 0 pages console.
Proof.
  destruct (packAtlases_run_passes tasks maxSize padding) as (pages & console & Hrun & Hp).
  exists pages, console. split; [|done].
  unfold packAtlases. by rewrite Hrun.
Qed.

(** Every page of a run is the page of a pass over some of the tasks the
    run started from, in their order. *)
Lemma passes_pages maxSize padding remaining idx pages console :
  passes maxSize padding remaining idx pages console →
  Forall (λ page, ∃ attempted st i,
            attempted `sublist_of` remaining ∧
            packPage maxSize attempted (pass_start maxSize padding) = Returned st ∧
            page = page_of i maxSize (pageItems st)) pages.
Proof.
  induction 1 as [idx|remaining idx st Hne Hst Hz Hl
                  |remaining idx st pages console Hne Hst Hns Hp IH].
  - constructor.
  - constructor; [|constructor]. by exists remaining, st, idx.
  - constructor; [by exists remaining, st, idx|].
    eapply Forall_impl; [exact IH|]. cbn beta.
    intros page (attempted & st' & i & Hsub & Hst' & ->).
    exists attempted, st', i. split; [|done].
    etrans; [exact Hsub|]. by apply packPage_start in Hst as (_ & ? & _).
Qed.

(** ** No overlap, containment *)

Lemma apart_reserved_no_overlap pad a b :
  0 ≤ pad → apart (reserved pad a) (reserved pad b) → ¬ overlap a b.
Proof. unfold apart, reserved, overlap. cbn. lia. Qed.

Lemma in_page_reserved_inside page_size pad a :
  0 ≤ pad → in_page page_size (reserved pad a) → inside_page page_size a.
Proof. unfold in_page, within, reserved, inside_page. cbn. lia. Qed.

Lemma overlap_sym a b : overlap a b → overlap b a.
Proof. unfold overlap. tauto. Qed.

Lemma pass_inv_placements page_size pad st :
  0 ≤ pad → pass_inv page_size pad st →
  (∀ i j a b, i ≠ j → pageItems st !! i = Some a → pageItems st !! j = Some b →
              ¬ overlap a b) ∧
  (∀ a, a ∈ pageItems st → inside_page page_size a).
Proof.
  intros Hpad [_ _ _ Hia Hip]. split.
  - intros i j a b Hij Ha Hb.
    destruct (decide (i < j)%nat) as [Hlt|Hge].
    + eapply apart_reserved_no_overlap; [done|]. by eapply Hia.
    + intros Hov%overlap_sym. revert Hov.
      eapply apart_reserved_no_overlap; [done|]. eapply (Hia j i); [lia|done..].
  - rewrite Forall_forall in Hip. intros a Ha.
    eapply in_page_reserved_inside; [done|]. by apply Hip.
Qed.

(** C1.  For a positive page size and a padding that is not negative,
    [packAtlases] returns, and on every page it returns no two distinct
    placements overlap and every placement lies within the page:
    [0 <= x], [0 <= y], [x + w <= page_size], [y + h <= page_size]. *)
Theorem pages_no_overlap_and_contained tasks page_size pad :
  0 < page_size → 0 ≤ pad →
  ∃ pages,
    packAtlases tasks page_size pad = Returned pages ∧
    ∀ page, page ∈ pages →
      (∀ i j a b, i ≠ j →
         AtlasPage.items page !! i = Some a → AtlasPage.items page !! j = Some b →
         ¬ overlap a b) ∧
      (∀ a, a ∈ AtlasPage.items page →
         0 ≤ PackedRect.x a ∧ 0 ≤ PackedRect.y a ∧
         PackedRect.x a + PackedRect.w a ≤ page_size ∧
         PackedRect.y a + PackedRect.h a ≤ page_size).
Proof.
  intros _ Hpad.
  destruct (packAtlases_passes tasks page_size pad) as (pages & console & Hrun & Hp).
  exists pages. split; [done|].
  apply passes_pages in Hp. rewrite Forall_forall in Hp.
  intros page (attempted & st & i & _ & Hst & ->)%Hp.
  cbn [AtlasPage.items page_of].
  apply (pass_inv_placements page_size pad st Hpad).
  eapply packPage_inv; [apply pass_start_inv|exact Hst].
Qed.

Lemma pages_no_overlap_and_contained_witness :
  ∃ pages,
    packAtlases [item 60 60 "a"; item 50 50 "b"; item 40 70 "c"] 100 2 = Returned pages ∧
    ∀ page, page ∈ pages →
      (∀ i j a b, i ≠ j →
         AtlasPage.items page !! i = Some a → AtlasPage.items page !! j = Some b →
         ¬ overlap a b) ∧
      (∀ a, a ∈ AtlasPage.items page →
         0 ≤ PackedRect.x a ∧ 0 ≤ PackedRect.y a ∧
         PackedRect.x a + PackedRect.w a ≤ 100 ∧
         PackedRect.y a + PackedRect.h a ≤ 100).
Proof.
  apply (pages_no_overlap_and_contained
           [item 60 60 "a"; item 50 50 "b"; item 40 70 "c"] 100 2); lia.
Defined.

(** ** Sorting *)

Lemma sort_insert_perm {A} (cmp : A → A → Z) a l : sort_insert cmp a l ≡ₚ a :: l.
Proof.
  induction l as [|b l IH]; cbn [sort_insert]; [done|].
  destruct (cmp a b <=? 0); [done|].
  rewrite IH. apply Permutation_swap.
Qed.

Lemma js_sort_perm {A} (cmp : A → A → Z) l : js_sort cmp l ≡ₚ l.
Proof.
  induction l as [|a l IH]; cbn; [done|].
  fold (js_sort cmp l). by rewrite sort_insert_perm, IH.
Qed.

Lemma js_sort_nil_inv {A} (cmp : A → A → Z) l : js_sort cmp l = [] → l = [].
Proof.
  intros H. apply Permutation_nil_r. rewrite <- H. symmetry. apply js_sort_perm.
Qed.

(** ** Conservation of tasks *)

Lemma passes_conservation maxSize padding remaining idx pages console :
  passes maxSize padding remaining idx pages console →
  placed_tasks pages ++ dropped_tasks console ++
    filter (λ t, oversized maxSize t = true) remaining ≡ₚ remaining.
Proof.
  induction 1 as [idx|remaining idx st Hne Hst Hz Hl
                  |remaining idx st pages console Hne Hst Hns Hp IH].
  - done.
  - apply packPage_start in Hst as (_ & _ & Hperm & _).
    unfold placed_tasks, dropped_tasks. cbn. by rewrite !app_nil_r.
  - apply packPage_start in Hst as (_ & _ & Hperm & _ & Hnov).
    rewrite (filter_none _ (didntFit st)), app_nil_r in IH.
    2:{ eapply Forall_impl; [exact Hnov|]. cbn beta. congruence. }
    unfold placed_tasks in *. cbn [mbind list_bind AtlasPage.items page_of].
    fold (mbind (M := list) (λ page, PackedRect.task <$> AtlasPage.items page) pages).
    rewrite <- Hperm at 2. rewrite <- IH, <- !app_assoc. done.
Qed.

Lemma passes_nonempty maxSize padding remaining idx pages console :
  passes maxSize padding remaining idx pages console →
  remaining ≠ [] → pages ≠ [].
Proof. by destruct 1. Qed.

Lemma sublist_same_length {A} (l1 l2 : list A) :
  l1 `sublist_of` l2 → length l1 = length l2 → l1 = l2.
Proof.
  induction 1 as [|x l1 l2 Hsub IH|x l1 l2 Hsub IH]; cbn [length]; intros Hlen.
  - done.
  - f_equal. apply IH. lia.
  - apply sublist_length in Hsub. lia.
Qed.

(** ** Oversized tasks *)

Lemma oversized_spec maxSize t :
  oversized maxSize t = true ↔ maxSize < targetWidth t ∨ maxSize < targetHeight t.
Proof. unfold oversized. rewrite orb_true_iff, !Z.ltb_lt. tauto. Qed.

Lemma oversized_false maxSize t :
  oversized maxSize t = false ↔ targetWidth t ≤ maxSize ∧ targetHeight t ≤ maxSize.
Proof. unfold oversized. rewrite orb_false_iff, !Z.ltb_ge. tauto. Qed.

Lemma packPage_all_oversized maxSize remaining st :
  Forall (λ t, oversized maxSize t = true) remaining →
  packPage maxSize remaining st = Returned st.
Proof.
  induction 1 as [|t remaining Ht _ IH]; cbn [packPage]; [done|].
  by rewrite Ht.
Qed.

(** C3.  A task wider or higher than the page is on no page that
    [packAtlases] returns: every placement is that of a task within the page
    size, with that task's own dimensions, and the efficiency of a page is
    computed from its placements alone.  For the single task
    [(2049, 100, "big")] and page size 2048 the one page returned has no
    placement, whatever the padding. *)
Theorem oversized_tasks_never_placed tasks page_size pad :
  (∃ pages,
     packAtlases tasks page_size pad = Returned pages ∧
     (∀ t, page_size < targetWidth t ∨ page_size < targetHeight t →
        ∀ page a, page ∈ pages → a ∈ AtlasPage.items page → PackedRect.task a ≠ t) ∧
     (∀ page, page ∈ pages →
        (∀ a, a ∈ AtlasPage.items page →
           PackedRect.w a = targetWidth (PackedRect.task a) ∧
           PackedRect.h a = targetHeight (PackedRect.task a) ∧
           targetWidth (PackedRect.task a) ≤ page_size ∧
           targetHeight (PackedRect.task a) ≤ page_size) ∧
        AtlasPage.efficiency page =
          js_scale (js_div (usedArea (AtlasPage.items page)) (page_size * page_size)) 100))
  ∧ (∃ e, packAtlases [item 2049 100 "big"] 2048 pad =
            Returned [AtlasPage.mk 0 2048 2048 [] e]).
Proof.
  split; [|by eexists].
  destruct (packAtlases_passes tasks page_size pad) as (pages & console & Hrun & Hp).
  exists pages. split; [done|].
  apply passes_pages in Hp. rewrite Forall_forall in Hp.
  assert (Hrec : ∀ page a, page ∈ pages → a ∈ AtlasPage.items page →
                           records_task page_size a).
  { intros page a (attempted & st & i & _ & Hst & ->)%Hp Ha.
    apply packPage_start in Hst as (_ & _ & _ & Hrec & _).
    rewrite Forall_forall in Hrec. by apply Hrec. }
  split.
  - intros t Ht%oversized_spec page a Hpage Ha Heq.
    destruct (Hrec page a Hpage Ha) as (Hnov & _). congruence.
  - intros page Hpage. split.
    + intros a Ha. destruct (Hrec page a Hpage Ha) as (Hnov & Hw & Hh).
      apply oversized_false in Hnov. tauto.
    + by destruct (Hp page Hpage) as (attempted & st & i & _ & _ & ->).
Qed.

Lemma oversized_tasks_never_placed_witness :
  ∃ pages,
    packAtlases [item 2049 100 "big"; item 10 10 "small"] 2048 2 = Returned pages ∧
    ∀ page a, page ∈ pages → a ∈ AtlasPage.items page →
              PackedRect.task a ≠ item 2049 100 "big".
Proof.
  destruct (proj1 (oversized_tasks_never_placed
                     [item 2049 100 "big"; item 10 10 "small"] 2048 2))
    as (pages & Hrun & Hno & _).
  exists pages. split; [exact Hrun|].
  intros page a. apply Hno. left. cbn. lia.
Defined.

(** ** Termination and the stall guard *)

(** C5.  [packAtlases] returns on every input, and every task is accounted
    for once: it is placed on a page, or named in the stall warning, or
    oversized.  When a pass over remaining tasks, none of them oversized,
    places nothing, the loop stops there: it returns the pages built so far
    and the page of that pass, which is empty, and the tasks that remained
    are named in the warning and not placed. *)
Theorem packing_terminates_and_stall_stops tasks page_size pad :
  (∃ pages console,
     packAtlases_run tasks page_size pad = Returned (pages, console) ∧
     packAtlases tasks page_size pad = Returned pages ∧
     placed_tasks pages ++ dropped_tasks console ++
       filter (λ t, oversized page_size t = true) tasks ≡ₚ tasks)
  ∧ (∀ fuel remaining idx built st,
       remaining ≠ [] →
       Forall (λ t, oversized page_size t = false) remaining →
       packPage page_size remaining (pass_start page_size pad) = Returned st →
       pageItems st = [] →
       packAtlases_loop (S fuel) page_size pad remaining idx built =
         Returned (built ++ [page_of idx page_size []],
                   [{| warn_message := stallMessage; warn_tasks := remaining |}])).
Proof.
  split.
  - destruct (packAtlases_run_passes tasks page_size pad) as (pages & console & Hrun & Hp).
    exists pages, console. split; [done|]. split.
    + unfold packAtlases. by rewrite Hrun.
    + apply passes_conservation in Hp.
      rewrite <- (js_sort_perm byHeightDesc tasks) at 2.
      rewrite <- (js_sort_perm byHeightDesc tasks) at 1. done.
  - intros fuel remaining idx built st Hne Hnov Hst Hz.
    pose proof Hst as (_ & Hsub & Hperm & _)%packPage_start.
    rewrite Hz, (filter_none _ remaining), app_nil_r in Hperm.
    2:{ eapply Forall_impl; [exact Hnov|]. cbn beta. congruence. }
    cbn [fmap list_fmap app] in Hperm.
    assert (Heq : didntFit st = remaining).
    { apply sublist_same_length; [done|]. by rewrite Hperm. }
    destruct remaining as [|t remaining]; [done|].
    cbn [packAtlases_loop]. rewrite Hst. cbn [mbind Outcome_bind].
    rewrite Hz, Heq. cbn [length]. rewrite !Nat.eqb_refl. done.
Qed.

Lemma packing_terminates_and_stall_stops_witness :
  packAtlases_loop 1 200 2 [item 200 200 "a"] 0 [] =
    Returned ([] ++ [page_of 0 200 []],
              [{| warn_message := stallMessage; warn_tasks := [item 200 200 "a"] |}]).
Proof.
  refine (proj2 (packing_terminates_and_stall_stops [] 200 2) 0%nat [item 200 200 "a"] 0 []
            {| packer := MaxRectsPacker.new 200 200 2; pageItems := [];
               didntFit := [item 200 200 "a"] |} _ _ _ _).
  - discriminate.
  - repeat constructor.
  - vm_compute. reflexivity.
  - reflexivity.
Defined.

(** C2, at the input where it fails.  A task as wide and as high as the
    page passes the oversize test, which ignores the padding, but [insert]
    asks for the padding too: with page size 200 and padding 2 the task
    [(200, 200, "a")] needs 202 by 202.  The first pass places nothing, the
    stall guard fires, and the run returns one empty page: the task is
    dropped although it is not larger than the page. *)
Theorem exact_fit_task_is_dropped :
  ∃ e, packAtlases_run [item 200 200 "a"] 200 2 =
         Returned ([AtlasPage.mk 0 200 200 [] e],
                   [{| warn_message := stallMessage;
                       warn_tasks := [item 200 200 "a"] |}])
       ∧ oversized 200 (item 200 200 "a") = false.
Proof. eexists. split; [vm_compute|]; reflexivity. Qed.

(** ** Input validation *)

(** C4 as stated fails: with a negative padding, and with a page size that
    is not positive, [packAtlases] returns pages and throws nothing. *)
Lemma invalid_input_returns_pages :
  (∃ e, packAtlases [item 10 10 "a"] 100 (-1) =
          Returned [AtlasPage.mk 0 100 100
                      [PackedRect.mk 0 0 10 10 (item 10 10 "a")] e])
  ∧ (∃ e, packAtlases [item 10 10 "a"] (-1) 2 = Returned [AtlasPage.mk 0 (-1) (-1) [] e])
  ∧ ¬ (∀ tasks page_size pad, page_size ≤ 0 ∨ pad < 0 →
         ∃ err, packAtlases tasks page_size pad = Thrown err).
Proof.
  split; [eexists; vm_compute; reflexivity|].
  split; [eexists; vm_compute; reflexivity|].
  intros H. destruct (H [] 0 0) as [err Herr]; [lia|]. discriminate.
Qed.

(** C4, amended.  [packAtlases] validates nothing: for a page size that is
    not positive or a negative padding, as for any other, it returns a list
    of pages, which is empty only when there is no task. *)
Theorem invalid_input_is_not_rejected tasks page_size pad :
  page_size ≤ 0 ∨ pad < 0 →
  ∃ pages, packAtlases tasks page_size pad = Returned pages ∧
           (pages = [] ↔ tasks = []).
Proof.
  intros _.
  destruct (packAtlases_passes tasks page_size pad) as (pages & console & Hrun & Hp).
  exists pages. split; [done|]. split.
  - intros ->. apply (js_sort_nil_inv byHeightDesc).
    destruct (js_sort byHeightDesc tasks) eqn:Hs; [done|].
    exfalso. by eapply passes_nonempty.
  - intros ->. by inversion Hp.
Qed.

Lemma invalid_input_is_not_rejected_witness :
  ∃ pages, packAtlases [item 10 10 "a"] 100 (-1) = Returned pages ∧
           (pages = [] ↔ [item 10 10 "a"] = []).
Proof. apply (invalid_input_is_not_rejected [item 10 10 "a"] 100 (-1)). right. lia. Defined.

(** ** Best Short Side Fit *)

(** C7.  [insert] asks for the task's dimensions plus the padding.  If no
    free region is at least that wide and that high it returns [null] and
    leaves the packer as it was.  Otherwise it takes, among the regions that
    qualify, the one whose score
    [min(|width - requiredW|, |height - requiredH|)] is least, the first such
    in the order of the scan, and returns a placement at that region's
    origin with the task's own width and height. *)
Theorem insert_best_short_side_fit this task :
  let requiredW := targetWidth task + MaxRectsPacker.padding this in
  let requiredH := targetHeight task + MaxRectsPacker.padding this in
  ((∀ f, f ∈ MaxRectsPacker.freeRects this → ¬ qualifies requiredW requiredH f) ∧
   MaxRectsPacker.insert this task = Returned (None, this))
  ∨ (∃ i f this',
       MaxRectsPacker.freeRects this !! i = Some f ∧
       qualifies requiredW requiredH f ∧
       (∀ j g, MaxRectsPacker.freeRects this !! j = Some g →
               qualifies requiredW requiredH g →
               shortSideFit requiredW requiredH f ≤ shortSideFit requiredW requiredH g ∧
               ((j < i)%nat →
                shortSideFit requiredW requiredH f < shortSideFit requiredW requiredH g)) ∧
       MaxRectsPacker.insert this task =
         Returned (Some (PackedRect.mk (Rect.x f) (Rect.y f)
                           (targetWidth task) (targetHeight task) task),
                   this')).
Proof.
  intros requiredW requiredH.
  destruct (insert_cases this task) as [[Hnone Heq]|(i & f & l' & Hbest & _ & Heq)].
  - left. split; [|done]. by apply Forall_forall.
  - right. destruct Hbest as (Hi & Hq & Hmin).
    by exists i, f, (with_freeRects this l').
Qed.

Lemma insert_best_short_side_fit_witness :
  ∃ this',
    MaxRectsPacker.insert
      (MaxRectsPacker.mk 100 100 2
         [Rect.mk 0 0 100 30; Rect.mk 0 40 50 60; Rect.mk 60 40 40 25] [])
      (item 38 20 "a")
    = Returned (Some (PackedRect.mk 60 40 38 20 (item 38 20 "a")), this').
Proof.
  destruct (insert_best_short_side_fit
              (MaxRectsPacker.mk 100 100 2
                 [Rect.mk 0 0 100 30; Rect.mk 0 40 50 60; Rect.mk 60 40 40 25] [])
              (item 38 20 "a"))
    as [[Hnone _]|(i & f & this' & Hi & _ & Hmin & Heq)].
  - exfalso. apply (Hnone (Rect.mk 0 0 100 30)); [by left|]. split; cbn; lia.
  - exists this'.
    destruct (Hmin 2%nat (Rect.mk 60 40 40 25) eq_refl) as [Hle _]; [split; cbn; lia|].
    destruct i as [|[|[|i]]]; cbn [lookup list_lookup freeRects] in Hi; try discriminate;
      injection Hi as <-; vm_compute in Hle; try (exfalso; by apply Hle).
    exact Heq.
Defined.

(** ** The worker *)

(** C9.  The handler ends normally and posts one response, whatever the
    packing function does: its pages in a success when it returns, the text
    of what it threw in a failure when it throws.  With [packAtlases] as the
    packing function it posts a success with the pages of [packAtlases]. *)
Theorem worker_posts_one_response pack data :
  (∀ pages, pack (PackerMessage.tasks data) (PackerMessage.maxSize data)
             (PackerMessage.padding data) = Returned pages →
     ∃ effects, onmessage_with pack data = Returned effects ∧
                responses effects = [Success pages])
  ∧ (∀ err, pack (PackerMessage.tasks data) (PackerMessage.maxSize data)
             (PackerMessage.padding data) = Thrown err →
       ∃ effects, onmessage_with pack data = Returned effects ∧
                  responses effects = [Failure (String_of err)])
  ∧ (∃ pages effects,
       packAtlases (PackerMessage.tasks data) (PackerMessage.maxSize data)
                   (PackerMessage.padding data) = Returned pages ∧
       onmessage data = Returned effects ∧
       responses effects = [Success pages]).
Proof.
  split; [|split].
  - intros pages Hp. unfold onmessage_with. rewrite Hp. by eexists.
  - intros err Hp. unfold onmessage_with. rewrite Hp. by eexists.
  - destruct (packAtlases_passes (PackerMessage.tasks data) (PackerMessage.maxSize data)
                (PackerMessage.padding data))
      as (pages & console & Hrun & _).
    exists pages. unfold onmessage, onmessage_with. rewrite Hrun. by eexists.
Qed.

Lemma worker_posts_one_response_witness :
  ∃ effects,
    onmessage_with (λ _ _ _, Thrown "RangeError: Invalid array length")
      (PackerMessage.mk [] 2048 2) = Returned effects ∧
    responses effects = [Failure "RangeError: Invalid array length"].
Proof.
  apply (proj1 (proj2 (worker_posts_one_response
                         (λ _ _ _, Thrown "RangeError: Invalid array length")
                         (PackerMessage.mk [] 2048 2)))).
  reflexivity.
Defined.

(** ** Rounding to a double *)











Lemma round_double_zero q : (q == 0)%Q → round_double q = 0%Q.
Proof.
  intros Hq. unfold Qeq in Hq. cbn in Hq. unfold round_double.
  by replace (Qnum q) with 0 by lia.
Qed.







(** ** Empty and non-empty results *)

Lemma pageEfficiency_nil maxSize :
  maxSize ≠ 0 → pageEfficiency maxSize [] = Num 0.
Proof.
  intros Hne. unfold pageEfficiency, usedArea, js_div. cbn [fold_left].
  destruct (maxSize * maxSize =? 0) eqn:Hz; [apply Z.eqb_eq in Hz; nia|].
  cbn [js_scale]. rewrite (round_double_zero (inject_Z 0 / inject_Z (maxSize * maxSize))); [done|].
  unfold Qdiv. apply Qmult_0_l.
Qed.

Lemma packAtlases_all_oversized tasks page_size pad :
  tasks ≠ [] →
  (∀ t, t ∈ tasks → page_size < targetWidth t ∨ page_size < targetHeight t) →
  packAtlases tasks page_size pad =
    Returned [AtlasPage.mk 0 page_size page_size [] (pageEfficiency page_size [])].
Proof.
  intros Hne Hall.
  assert (Hov : Forall (λ t, oversized page_size t = true) (js_sort byHeightDesc tasks)).
  { rewrite js_sort_perm. apply Forall_forall. intros t Ht. by apply oversized_spec, Hall. }
  unfold packAtlases, packAtlases_run.
  destruct (js_sort byHeightDesc tasks) as [|t sorted] eqn:Hs;
    [by apply js_sort_nil_inv in Hs|].
  cbn [length packAtlases_loop].
  rewrite packPage_all_oversized by done.
  by cbn [mbind Outcome_bind pass_start pageItems didntFit length Nat.eqb andb app fst].
Qed.

(** C10 as stated fails at page size 0: the one task is oversized, and the
    page returned has no placement, but its efficiency is [0 / 0 * 100], which
    is NaN and not 0. *)
Lemma all_oversized_on_page_size_zero :
  (∀ t, t ∈ [item 1 1 "a"] → 0 < targetWidth t ∨ 0 < targetHeight t) ∧
  packAtlases [item 1 1 "a"] 0 2 = Returned [AtlasPage.mk 0 0 0 [] NaN] ∧
  AtlasPage.efficiency (AtlasPage.mk 0 0 0 [] NaN) ≠ Num 0.
Proof.
  split; [|split; [reflexivity|discriminate]].
  intros t ->%list_elem_of_singleton. cbn. lia.
Qed.

(** C10.  Without tasks [packAtlases] returns no page; with tasks it
    returns at least one page, whatever the page size and the padding; and
    when every task is oversized it returns exactly one page, of index 0 and
    with no placement, whose efficiency is 0 when the page size is not 0, and
    NaN when it is 0. *)
Theorem pages_empty_only_without_tasks tasks page_size pad :
  packAtlases [] page_size pad = Returned [] ∧
  (tasks ≠ [] →
     ∃ pages, packAtlases tasks page_size pad = Returned pages ∧ pages ≠ []) ∧
  (tasks ≠ [] →
   (∀ t, t ∈ tasks → page_size < targetWidth t ∨ page_size < targetHeight t) →
     (page_size ≠ 0 →
        packAtlases tasks page_size pad =
          Returned [AtlasPage.mk 0 page_size page_size [] (Num 0)]) ∧
     (page_size = 0 →
        packAtlases tasks page_size pad = Returned [AtlasPage.mk 0 0 0 [] NaN])).
Proof.
  split; [done|]. split.
  - intros Hne.
    destruct (packAtlases_passes tasks page_size pad) as (pages & console & Hrun & Hp).
    exists pages. split; [done|].
    eapply passes_nonempty; [exact Hp|]. intros Hs. by apply js_sort_nil_inv in Hs.
  - intros Hne Hall. rewrite packAtlases_all_oversized by done. split.
    + intros HP. by rewrite pageEfficiency_nil.
    + by intros ->.
Qed.

Lemma pages_empty_only_without_tasks_witness :
  packAtlases [item 2049 100 "big"; item 10 4000 "tall"] 2048 2 =
    Returned [AtlasPage.mk 0 2048 2048 [] (Num 0)].
Proof.
  apply (proj2 (proj2 (pages_empty_only_without_tasks
                         [item 2049 100 "big"; item 10 4000 "tall"] 2048 2))).
  - discriminate.
  - intros t Ht. repeat (apply elem_of_cons in Ht as [-> | Ht]); [cbn; lia..|].
    by apply elem_of_nil in Ht.
  - lia.
Defined.

(** ** Order of the attempts *)

Lemma sort_insert_sorted a l :
  StronglySorted taller_first l →
  StronglySorted taller_first (sort_insert byHeightDesc a l).
Proof.
  induction 1 as [|b l Hl IH Hb]; cbn [sort_insert].
  - repeat constructor.
  - unfold byHeightDesc at 1.
    destruct (targetHeight b - targetHeight a <=? 0) eqn:Hc.
    + apply Z.leb_le in Hc.
      constructor; [by constructor|].
      constructor; [unfold taller_first; lia|].
      eapply Forall_impl; [exact Hb|]. unfold taller_first. intros c. cbn beta. lia.
    + apply Z.leb_gt in Hc.
      constructor; [done|].
      rewrite sort_insert_perm.
      constructor; [unfold taller_first; lia|done].
Qed.

Lemma js_sort_sorted l : StronglySorted taller_first (js_sort byHeightDesc l).
Proof.
  induction l as [|a l IH]; cbn; [constructor|].
  by apply sort_insert_sorted.
Qed.

Lemma StronglySorted_lookup {A} (R : A → A → Prop) l i j a b :
  StronglySorted R l → (i < j)%nat → l !! i = Some a → l !! j = Some b → R a b.
Proof.
  intros Hl. revert i j. induction Hl as [|c l Hl IH Hc]; intros i j Hij Ha Hb.
  - by rewrite lookup_nil in Ha.
  - destruct j as [|j]; [lia|]. cbn in Hb.
    destruct i as [|i]; cbn in Ha.
    + injection Ha as ->. rewrite Forall_forall in Hc. apply Hc.
      by eapply list_elem_of_lookup_2.
    + eapply (IH i j); [lia|done..].
Qed.

(** Tasks of one height keep the order they had. *)
Lemma sort_insert_stable k a l :
  filter (λ t, targetHeight t = k) (sort_insert byHeightDesc a l) =
  filter (λ t, targetHeight t = k) (a :: l).
Proof.
  induction l as [|b l IH]; cbn [sort_insert]; [done|].
  unfold byHeightDesc at 1.
  destruct (targetHeight b - targetHeight a <=? 0) eqn:Hc; [done|].
  apply Z.leb_gt in Hc.
  rewrite (filter_cons _ b), IH, !filter_cons.
  repeat case_decide; try done; lia.
Qed.

Lemma js_sort_stable k l :
  filter (λ t, targetHeight t = k) (js_sort byHeightDesc l) =
  filter (λ t, targetHeight t = k) l.
Proof.
  induction l as [|a l IH]; cbn; [done|].
  fold (js_sort byHeightDesc l).
  by rewrite sort_insert_stable, !filter_cons, IH.
Qed.

(** A stable sort has one result: the model of [Array.prototype.sort] does not
    depend on the algorithm of the engine. *)
Lemma stable_sort_unique (l1 l2 : list OptimizationTask) :
  StronglySorted taller_first l1 → StronglySorted taller_first l2 →
  (∀ k, filter (λ t, targetHeight t = k) l1 = filter (λ t, targetHeight t = k) l2) →
  l1 = l2.
Proof.
  intros H1. revert l2. induction H1 as [|a l1 H1 IH Ha]; intros l2 H2 Hst.
  - destruct l2 as [|b l2]; [done|].
    specialize (Hst (targetHeight b)). by rewrite filter_nil, filter_cons_True in Hst.
  - destruct H2 as [|b l2 H2 Hb].
    { specialize (Hst (targetHeight a)). by rewrite filter_nil, filter_cons_True in Hst. }
    assert (Hab : targetHeight a = targetHeight b).
    { apply Z.le_antisymm.
      - assert (Hin : a ∈ b :: l2).
        { eapply (proj1 (list_elem_of_filter (λ t, targetHeight t = targetHeight a) _ _)).
          rewrite <- Hst, filter_cons_True by done. by left. }
        apply elem_of_cons in Hin as [->|Hin]; [done|].
        rewrite Forall_forall in Hb. by apply Hb.
      - assert (Hin : b ∈ a :: l1).
        { eapply (proj1 (list_elem_of_filter (λ t, targetHeight t = targetHeight b) _ _)).
          rewrite Hst, filter_cons_True by done. by left. }
        apply elem_of_cons in Hin as [->|Hin]; [done|].
        rewrite Forall_forall in Ha. by apply Ha. }
    pose proof (Hst (targetHeight a)) as Hk.
    rewrite !filter_cons_True in Hk by done. injection Hk as <- Hk.
    f_equal. apply IH; [done|].
    intros k. specialize (Hst k). rewrite !filter_cons in Hst.
    destruct (decide (targetHeight a = k)); [by injection Hst|done].
Qed.

Lemma js_sort_is_the_stable_sort tasks sorted :
  StronglySorted taller_first sorted →
  (∀ k, filter (λ t, targetHeight t = k) sorted = filter (λ t, targetHeight t = k) tasks) →
  sorted = js_sort byHeightDesc tasks.
Proof.
  intros Hs Hst. apply stable_sort_unique; [done|apply js_sort_sorted|].
  intros k. by rewrite js_sort_stable.
Qed.

(** A pass over a list that is cut in two is the pass over the first part
    followed by the pass over the second. *)
Lemma packPage_app maxSize l1 l2 : ∀ st,
  packPage maxSize (l1 ++ l2) st = packPage maxSize l1 st ≫= packPage maxSize l2.
Proof.
  induction l1 as [|task l1 IH]; intros st; cbn [app packPage]; [done|].
  destruct (oversized maxSize task); [apply IH|].
  destruct (insert (packer st) task) as [[rect pk]| |]; cbn [mbind Outcome_bind];
    [|done..].
  destruct rect; apply IH.
Qed.

Lemma packPage_attempt maxSize pre t suf st0 st :
  packPage maxSize (pre ++ t :: suf) st0 = Returned st →
  ∃ before after,
    packPage maxSize pre st0 = Returned before ∧
    packPage maxSize (pre ++ [t]) st0 = Returned after ∧
    pageItems after `prefix_of` pageItems st ∧
    didntFit after `prefix_of` didntFit st ∧
    attempt maxSize t before after.
Proof.
  rewrite packPage_app.
  destruct (packPage_returns maxSize pre st0) as [before Hb].
  rewrite Hb. cbn [mbind Outcome_bind]. intros Hst. exists before.
  assert (Hstep : ∃ after, packPage maxSize [t] before = Returned after ∧
                           packPage maxSize suf after = Returned st ∧
                           attempt maxSize t before after).
  { cbn [packPage] in Hst |- *. unfold attempt.
    destruct (oversized maxSize t); [by exists before|].
    destruct (insert (packer before) t) as [[rect pk]| |] eqn:Hins;
      cbn [mbind Outcome_bind] in Hst |- *; [|done..].
    destruct rect as [r|].
    - eexists. split; [reflexivity|]. split; [exact Hst|].
      exists (Some r), pk. split; [done|]. cbn [packer pageItems didntFit].
      split; [done|]. split; [|done].
      destruct (insert_cases (packer before) t) as [[_ Heq]|(i & f & l' & _ & _ & Heq)];
        rewrite Heq in Hins; [discriminate|].
      by injection Hins as <- _.
    - eexists. split; [reflexivity|]. split; [exact Hst|].
      exists None, pk. by split. }
  destruct Hstep as (after & Ha & Hsuf & Hatt).
  exists after. split; [done|].
  split; [by rewrite packPage_app, Hb|].
  destruct (packPage_spec maxSize suf after) as (placed & failed & pk & Heq & _).
  rewrite Heq in Hsuf. injection Hsuf as <-. cbn [pageItems didntFit].
  split; [by eexists|]. split; [by eexists|done].
Qed.

(** C8.  The tasks are attempted in the order of [sortedTasks]: the tasks
    sorted by height, tallest first, tasks of equal height in the order of
    the input.  The first pass attempts them all; each later pass attempts
    the tasks that did not fit in the pass before it.  A pass takes its tasks
    one after the other: an oversized task is skipped; any other task is
    inserted in the packer as the tasks before it have left it, and is added
    at the end of the placements when it fits, at the end of the carried-over
    tasks when it does not.  So the placed tasks and the tasks that did not
    fit keep the order in which they were attempted, together with the
    oversized tasks they are the tasks of the pass, and the placements of
    every page follow the sorted order. *)
Theorem attempts_follow_sorted_order tasks page_size pad :
  let sortedTasks := js_sort byHeightDesc tasks in
  sortedTasks ≡ₚ tasks ∧
  (∀ i j a b, (i < j)%nat → sortedTasks !! i = Some a → sortedTasks !! j = Some b →
              targetHeight b ≤ targetHeight a) ∧
  (∀ k, filter (λ t, targetHeight t = k) sortedTasks =
        filter (λ t, targetHeight t = k) tasks) ∧
  (∃ pages console,
     packAtlases tasks page_size pad = Returned pages ∧
     passes page_size pad sortedTasks 0 pages console ∧
     ∀ page, page ∈ pages →
       PackedRect.task <$> AtlasPage.items page `sublist_of` sortedTasks) ∧
  (∀ remaining st,
     packPage page_size remaining (pass_start page_size pad) = Returned st →
     PackedRect.task <$> pageItems st `sublist_of` remaining ∧
     didntFit st `sublist_of` remaining ∧
     (PackedRect.task <$> pageItems st) ++ didntFit st ++
       filter (λ t, oversized page_size t = true) remaining ≡ₚ remaining ∧
     Forall (λ r, oversized page_size (PackedRect.task r) = false) (pageItems st) ∧
     Forall (λ t, oversized page_size t = false) (didntFit st)) ∧
  (∀ pre t suf st,
     packPage page_size (pre ++ t :: suf) (pass_start page_size pad) = Returned st →
     ∃ before after,
       packPage page_size pre (pass_start page_size pad) = Returned before ∧
       packPage page_size (pre ++ [t]) (pass_start page_size pad) = Returned after ∧
       pageItems after `prefix_of` pageItems st ∧
       didntFit after `prefix_of` didntFit st ∧
       attempt page_size t before after).
Proof.
  intros sortedTasks.
  split; [apply js_sort_perm|].
  split.
  { intros i j a b Hij Ha Hb.
    exact (StronglySorted_lookup taller_first _ i j a b (js_sort_sorted tasks) Hij Ha Hb). }
  split; [intros k; apply js_sort_stable|].
  split; [|split].
  - destruct (packAtlases_passes tasks page_size pad) as (pages & console & Hrun & Hp).
    exists pages, console. split; [done|]. split; [done|].
    apply passes_pages in Hp. rewrite Forall_forall in Hp.
    intros page (attempted & st & i & Hsub & Hst & ->)%Hp.
    cbn [AtlasPage.items page_of].
    etrans; [|exact Hsub]. by apply packPage_start in Hst as (? & _).
  - intros remaining st Hst.
    apply packPage_start in Hst as (? & ? & ? & Hrec & ?).
    do 3 (split; [done|]). split; [|done].
    eapply Forall_impl; [exact Hrec|]. by intros r [? _].
  - intros pre t suf st. apply packPage_attempt.
Qed.

Lemma attempts_follow_sorted_order_witness :
  ∃ before after,
    packPage 100 [item 40 70 "c"; item 60 60 "a"] (pass_start 100 2) = Returned before ∧
    packPage 100 ([item 40 70 "c"; item 60 60 "a"] ++ [item 50 50 "b"]) (pass_start 100 2)
      = Returned after ∧
    pageItems after `prefix_of`
      [PackedRect.mk 0 0 40 70 (item 40 70 "c");
       PackedRect.mk 42 0 50 50 (item 50 50 "b");
       PackedRect.mk 0 72 10 10 (item 10 10 "d")] ∧
    didntFit after `prefix_of` [item 60 60 "a"] ∧
    attempt 100 (item 50 50 "b") before after.
Proof.
  pose proof (proj2 (proj2 (proj2 (proj2 (proj2
                (attempts_follow_sorted_order [] 100 2)))))
                [item 40 70 "c"; item 60 60 "a"] (item 50 50 "b") [item 10 10 "d"]) as H.
  cbn zeta in H. edestruct H as (before & after & H1 & H2 & H3 & H4 & H5).
  { vm_compute. reflexivity. }
  exists before, after. cbn [pageItems didntFit] in H3, H4. done.
Defined.

(** ** Efficiency *)













(** ** When the padding fits too *)

Lemma insert_fresh_fits maxSize pad task :
  targetWidth task + pad ≤ maxSize → targetHeight task + pad ≤ maxSize →
  ∃ r pk, insert (MaxRectsPacker.new maxSize maxSize pad) task = Returned (Some r, pk).
Proof.
  intros Hw Hh.
  destruct (insert_cases (MaxRectsPacker.new maxSize maxSize pad) task)
    as [[Hnone _]|(i & f & l' & _ & _ & Heq)]; [|by eexists _, _].
  apply Forall_cons_1 in Hnone as [Hnone _]. exfalso. apply Hnone. by split.
Qed.

Lemma packPage_first_fits maxSize pad task remaining st :
  oversized maxSize task = false →
  targetWidth task + pad ≤ maxSize → targetHeight task + pad ≤ maxSize →
  packPage maxSize (task :: remaining) (pass_start maxSize pad) = Returned st →
  pageItems st ≠ [].
Proof.
  intros Hov Hw Hh. cbn [packPage]. rewrite Hov.
  destruct (insert_fresh_fits maxSize pad task Hw Hh) as (r & pk & Hins).
  change (packer (pass_start maxSize pad)) with (MaxRectsPacker.new maxSize maxSize pad).
  rewrite Hins. cbn [mbind Outcome_bind].
  destruct (packPage_spec maxSize remaining
              {| packer := pk; pageItems := pageItems (pass_start maxSize pad) ++ [r];
                 didntFit := didntFit (pass_start maxSize pad) |})
    as (placed & failed & pk' & -> & _).
  intros [= <-]. cbn [pageItems pass_start app]. discriminate.
Qed.

Lemma passes_no_stall maxSize pad remaining idx pages console :
  0 ≤ pad →
  passes maxSize pad remaining idx pages console →
  Forall (λ t, targetWidth t + pad ≤ maxSize ∧ targetHeight t + pad ≤ maxSize) remaining →
  console = [] ∧ placed_tasks pages ≡ₚ remaining.
Proof.
  intros Hpad Hp. induction Hp as [idx|remaining idx st Hne Hst Hz Hl
                                   |remaining idx st pages console Hne Hst Hns Hp IH];
    intros Hfit.
  - done.
  - exfalso. destruct remaining as [|t remaining]; [done|].
    apply Forall_cons_1 in Hfit as [[Hw Hh] _].
    eapply packPage_first_fits; [|exact Hw|exact Hh|exact Hst|exact Hz].
    apply oversized_false. lia.
  - pose proof Hst as (_ & Hsub & Hperm & _)%packPage_start.
    destruct IH as [-> IH].
    { apply Forall_forall. intros t Ht. rewrite Forall_forall in Hfit.
      apply Hfit. by eapply elem_of_sublist. }
    split; [done|].
    rewrite (filter_none _ remaining), app_nil_r in Hperm.
    2:{ eapply Forall_impl; [exact Hfit|]. cbn beta. intros t [Hw Hh] Ht.
        apply oversized_spec in Ht. lia. }
    unfold placed_tasks in *. cbn [mbind list_bind AtlasPage.items page_of].
    fold (mbind (M := list) (λ page, PackedRect.task <$> AtlasPage.items page) pages).
    by rewrite IH.
Qed.

(** X11.  Every task is placed exactly once, and the stall guard stays silent,
    when every task fits in the page together with its padding. *)
Lemma conservation_when_padding_fits tasks page_size pad :
  0 ≤ pad →
  (∀ t, t ∈ tasks → targetWidth t + pad ≤ page_size ∧ targetHeight t + pad ≤ page_size) →
  ∃ pages, packAtlases_run tasks page_size pad = Returned (pages, []) ∧
           placed_tasks pages ≡ₚ tasks.
Proof.
  intros Hpad Hfit.
  destruct (packAtlases_run_passes tasks page_size pad) as (pages & console & Hrun & Hp).
  apply (passes_no_stall _ _ _ _ _ _ Hpad) in Hp as [-> Hperm].
  - exists pages. split; [done|]. by rewrite Hperm, js_sort_perm.
  - rewrite js_sort_perm. by apply Forall_forall.
Qed.

(** ** Scenarios of the specification, evaluated *)

Example scenario_A :
  ∃ e, packAtlases [item 100 100 "a"; item 100 100 "b"] 200 0 =
         Returned [AtlasPage.mk 0 200 200
                     [PackedRect.mk 0 0 100 100 (item 100 100 "a");
                      PackedRect.mk 0 100 100 100 (item 100 100 "b")] (Num e)]
       ∧ (e == 50)%Q.
Proof. eexists. split; [vm_compute; reflexivity|reflexivity]. Qed.

Example scenario_C :
  ∃ pages, packAtlases (replicate 50 (item 40 40 "s")) 200 2 = Returned pages ∧
           (length ∘ AtlasPage.items) <$> pages = [16; 16; 16; 2]%nat.
Proof. eexists. split; [vm_compute; reflexivity|reflexivity]. Qed.

(** * Further properties of the packer *)

(** ** What splitting leaves free *)

Lemma apart_not_covers f u px py : apart f u → covers f px py → ¬ covers u px py.
Proof. unfold apart, covers. lia. Qed.

Lemma within_covers f g px py : within f g → covers f px py → covers g px py.
Proof. unfold within, covers. lia. Qed.

Ltac elem_search :=
  cbn [app]; repeat first [apply list_elem_of_here | apply list_elem_of_further].

Ltac bool_cases :=
  bool_hyps;
  repeat match goal with
         | H : _ = false ∨ _ = false |- _ => destruct H; bool_hyps
         end.

Lemma residues_cover f u px py :
  ¬ apart f u →
  (∃ r, r ∈ residues f u ∧ covers r px py) ↔ covers f px py ∧ ¬ covers u px py.
Proof.
  intros Hna. split.
  - intros (r & Hr & Hc). split.
    + eapply within_covers; [|exact Hc].
      pose proof (residues_within f u Hna) as H. rewrite Forall_forall in H. by apply H.
    + eapply apart_not_covers; [|exact Hc].
      pose proof (residues_apart f u) as H. rewrite Forall_forall in H. by apply H.
  - unfold apart, covers in *. intros [Hf Hu].
    assert (Hcase : px < Rect.x u ∨ Rect.x u + Rect.width u ≤ px ∨
                    py < Rect.y u ∨ Rect.y u + Rect.height u ≤ py) by lia.
    clear Hu. unfold residues.
    destruct Hcase as [Hc|[Hc|[Hc|Hc]]]; split_ifs; bool_cases;
      first
        [ lia
        | exists (Rect.mk (Rect.x f) (Rect.y f) (Rect.width f) (Rect.y u - Rect.y f));
          split; [elem_search|cbn; lia]
        | exists (Rect.mk (Rect.x f) (Rect.y u + Rect.height u) (Rect.width f)
                    (Rect.y f + Rect.height f - (Rect.y u + Rect.height u)));
          split; [elem_search|cbn; lia]
        | exists (Rect.mk (Rect.x f) (Rect.y f) (Rect.x u - Rect.x f) (Rect.height f));
          split; [elem_search|cbn; lia]
        | exists (Rect.mk (Rect.x u + Rect.width u) (Rect.y f)
                    (Rect.x f + Rect.width f - (Rect.x u + Rect.width u)) (Rect.height f));
          split; [elem_search|cbn; lia] ].
Qed.

(** X1.  The residues of a free node are the node without the used rectangle,
    cell for cell. *)
Theorem residues_cover_exactly f u px py :
  ¬ apart f u →
  (∃ r, r ∈ residues f u ∧ covers r px py) ↔ covers f px py ∧ ¬ covers u px py.
Proof. apply residues_cover. Qed.

Lemma residues_cover_exactly_witness :
  (∃ r, r ∈ residues (Rect.mk 0 0 10 10) (Rect.mk 0 0 4 6) ∧ covers r 5 2)
  ↔ covers (Rect.mk 0 0 10 10) 5 2 ∧ ¬ covers (Rect.mk 0 0 4 6) 5 2.
Proof.
  apply (residues_cover_exactly (Rect.mk 0 0 10 10) (Rect.mk 0 0 4 6) 5 2).
  unfold apart. cbn. lia.
Defined.

(** ** Pruning *)

Lemma isContained_spec a b : isContained a b = true ↔ within a b.
Proof.
  unfold isContained, within. rewrite !andb_true_iff, !Z.leb_le. tauto.
Qed.

Lemma pruneFreeList_loop_covers fuel : ∀ l i j l',
  (i < j)%nat →
  pruneFreeList_loop fuel l i j = Returned l' →
  ∀ f, f ∈ l → ∃ g, g ∈ l' ∧ within f g.
Proof.
  induction fuel as [|fuel IH]; intros l i j l' Hij Hrun f Hf; [discriminate|].
  cbn [pruneFreeList_loop] in Hrun.
  destruct (l !! i) as [rect1|] eqn:Hi.
  2:{ injection Hrun as <-. exists f. split; [done|]. unfold within. lia. }
  destruct (l !! j) as [rect2|] eqn:Hj; [|eapply IH; [|exact Hrun|exact Hf]; lia].
  destruct (isContained rect1 rect2) eqn:H12.
  - apply isContained_spec in H12.
    assert (H2 : rect2 ∈ delete i l).
    { apply (list_elem_of_lookup_2 _ (pred j)).
      rewrite list_lookup_delete_ge by lia. by replace (S (pred j)) with j by lia. }
    apply list_elem_of_lookup_1 in Hf as [k Hk].
    destruct (decide (k = i)) as [->|Hne].
    + rewrite Hi in Hk. injection Hk as <-.
      destruct (IH (delete i l) i (S i) l' ltac:(lia) Hrun rect2 H2) as (g & Hg & Hw).
      exists g. split; [done|]. by eapply within_trans.
    + eapply (IH (delete i l) i (S i) l' ltac:(lia) Hrun).
      destruct (decide (k < i)%nat).
      * apply (list_elem_of_lookup_2 _ k). by rewrite list_lookup_delete_lt.
      * apply (list_elem_of_lookup_2 _ (pred k)).
        rewrite list_lookup_delete_ge by lia. by replace (S (pred k)) with k by lia.
  - destruct (isContained rect2 rect1) eqn:H21; [|eapply IH; [|exact Hrun|exact Hf]; lia].
    apply isContained_spec in H21.
    assert (H1 : rect1 ∈ delete j l).
    { apply (list_elem_of_lookup_2 _ i). by rewrite list_lookup_delete_lt. }
    apply list_elem_of_lookup_1 in Hf as [k Hk].
    destruct (decide (k = j)) as [->|Hne].
    + rewrite Hj in Hk. injection Hk as <-.
      destruct (IH _ _ _ _ Hij Hrun rect1 H1) as (g & Hg & Hw).
      exists g. split; [done|]. by eapply within_trans.
    + eapply (IH _ _ _ _ Hij Hrun).
      destruct (decide (k < j)%nat).
      * apply (list_elem_of_lookup_2 _ k). by rewrite list_lookup_delete_lt.
      * apply (list_elem_of_lookup_2 _ (pred k)).
        rewrite list_lookup_delete_ge by lia. by replace (S (pred k)) with k by lia.
Qed.

Lemma lookup_delete_Some_inv {A} (l : list A) d k x :
  delete d l !! k = Some x →
  ∃ k', l !! k' = Some x ∧ ((k < d)%nat ∧ k' = k ∨ (d ≤ k)%nat ∧ k' = S k).
Proof.
  intros H. destruct (decide (k < d)%nat).
  - rewrite list_lookup_delete_lt in H by done. exists k. auto.
  - rewrite list_lookup_delete_ge in H by lia. exists (S k). split; [done|]. right. lia.
Qed.

Lemma pruneFreeList_loop_pruned fuel : ∀ l i j l',
  (i < j)%nat → compared l i j →
  pruneFreeList_loop fuel l i j = Returned l' →
  no_contained l'.
Proof.
  induction fuel as [|fuel IH]; intros l i j l' Hij [Hdone Hrow] Hrun; [discriminate|].
  cbn [pruneFreeList_loop] in Hrun.
  destruct (l !! i) as [rect1|] eqn:Hi.
  2:{ injection Hrun as <-. apply lookup_ge_None in Hi.
      intros a b ra rb Hab Ha Hb.
      pose proof (lookup_lt_Some _ _ _ Ha). pose proof (lookup_lt_Some _ _ _ Hb).
      destruct (decide (a < b)%nat).
      - apply (Hdone a b ra rb); [lia|lia|done..].
      - apply (Hdone b a rb ra); [lia|lia|done..]. }
  destruct (l !! j) as [rect2|] eqn:Hj.
  - destruct (isContained rect1 rect2) eqn:H12.
    + eapply (IH (delete i l) i (S i)); [lia| |exact Hrun]. split.
      * intros a b ra rb Hai Hab Ha Hb.
        rewrite list_lookup_delete_lt in Ha by done.
        apply lookup_delete_Some_inv in Hb as (b' & Hb & Hb').
        apply (Hdone a b' ra rb); [done|lia|done..].
      * intros b ri rb Hb. lia.
    + destruct (isContained rect2 rect1) eqn:H21.
      * eapply (IH (delete j l) i j); [lia| |exact Hrun]. split.
        -- intros a b ra rb Hai Hab Ha Hb.
           rewrite list_lookup_delete_lt in Ha by lia.
           apply lookup_delete_Some_inv in Hb as (b' & Hb & Hb').
           apply (Hdone a b' ra rb); [done|lia|done..].
        -- intros b ri rb Hb Hri Hrb.
           rewrite list_lookup_delete_lt in Hri by lia.
           rewrite list_lookup_delete_lt in Hrb by lia.
           rewrite Hi in Hri. exact (Hrow b ri rb Hb Hri Hrb).
      * eapply (IH l i (S j)); [lia| |exact Hrun]. split; [done|].
        intros b ri rb Hb Hri Hrb.
        destruct (decide (b = j)) as [->|Hne].
        -- rewrite Hi in Hri. rewrite Hj in Hrb.
           injection Hri as <-. injection Hrb as <-. done.
        -- rewrite Hi in Hri. apply (Hrow b ri rb); [lia|exact Hri|exact Hrb].
  - eapply (IH l (S i) (S (S i))); [lia| |exact Hrun]. split.
    + intros a b ra rb Hai Hab Ha Hb.
      destruct (decide (a = i)) as [->|Hne].
      * apply lookup_ge_None in Hj. pose proof (lookup_lt_Some _ _ _ Hb).
        rewrite Hi in Ha. apply (Hrow b ra rb); [lia|done..].
      * apply (Hdone a b ra rb); [lia|done..].
    + intros b ri rb Hb. lia.
Qed.

Lemma pruneFreeList_result this :
  ∃ l', pruneFreeList this = Returned (with_freeRects this l') ∧
        l' `sublist_of` freeRects this ∧
        no_contained l' ∧
        ∀ f, f ∈ freeRects this → ∃ g, g ∈ l' ∧ within f g.
Proof.
  destruct (pruneFreeList_returns this) as (l' & Hrun & Hsub).
  exists l'. split; [done|]. split; [done|].
  unfold pruneFreeList in Hrun.
  apply bind_Returned in Hrun as (l'' & Hloop & [= <-]).
  split.
  - eapply pruneFreeList_loop_pruned; [| |exact Hloop]; [lia|].
    split; intros; lia.
  - eapply pruneFreeList_loop_covers; [|exact Hloop]. lia.
Qed.

(** X3.  After [pruneFreeList] no free node is contained in another one. *)
Theorem pruneFreeList_leaves_no_contained_node this :
  ∃ l', pruneFreeList this = Returned (with_freeRects this l') ∧ no_contained l'.
Proof.
  destruct (pruneFreeList_result this) as (l' & Hrun & _ & Hnc & _). by exists l'.
Qed.

(** X4.  [pruneFreeList] only removes nodes, keeps the others in their order, and
    every node it removes lies within a node it keeps: no free cell is
    lost. *)
Theorem pruneFreeList_keeps_the_free_cells this :
  ∃ l', pruneFreeList this = Returned (with_freeRects this l') ∧
        l' `sublist_of` freeRects this ∧
        (∀ f, f ∈ freeRects this → ∃ g, g ∈ l' ∧ within f g) ∧
        (∀ px py, (∃ g, g ∈ l' ∧ covers g px py) ↔
                  (∃ f, f ∈ freeRects this ∧ covers f px py)).
Proof.
  destruct (pruneFreeList_result this) as (l' & Hrun & Hsub & _ & Hcov).
  exists l'. split; [done|]. split; [done|]. split; [done|].
  intros px py. split.
  - intros (g & Hg & Hc). exists g. split; [|done]. by eapply elem_of_sublist.
  - intros (f & Hf & Hc). destruct (Hcov f Hf) as (g & Hg & Hw).
    exists g. split; [done|]. by eapply within_covers.
Qed.

(** ** The splitting loop *)

(** X2.  The loop of [placeRect] visits the nodes that [splitFreeNode] pushes, but
    splits none of them again: the nodes apart from the used rectangle stay,
    in their order, and the residues of the other nodes follow, in the order
    of these nodes. *)
Theorem placeRect_loop_splits_each_node_once l u :
  placeRect_loop (placeRect_fuel l) l 0 u =
    Returned (filter (λ f, apartb f u = true) l ++
              flat_map (λ f, residues f u) (filter (λ f, apartb f u = false) l)).
Proof. apply placeRect_loop_returns. Qed.

Lemma placed_free_covers u l f px py :
  f ∈ l → covers f px py → ¬ covers u px py →
  ∃ f', f' ∈ placed_free u l ∧ covers f' px py.
Proof.
  intros Hf Hc Hu. unfold placed_free.
  destruct (apartb f u) eqn:Hfu.
  - exists f. split; [|done]. apply elem_of_app. left. by apply list_elem_of_filter.
  - apply apartb_false in Hfu.
    destruct (proj2 (residues_cover f u px py Hfu)) as (r & Hr & Hrc); [done|].
    exists r. split; [|done]. apply elem_of_app. right.
    apply list_elem_of_In, in_flat_map. exists f. split.
    + apply list_elem_of_In, list_elem_of_filter. split; [|done]. by apply apartb_false.
    + by apply list_elem_of_In.
Qed.

Lemma placeRect_result this rect :
  ∃ l', placeRect this rect = Returned (with_freeRects this l') ∧
        l' `sublist_of` placed_free rect (freeRects this) ∧
        no_contained l' ∧
        ∀ f, f ∈ placed_free rect (freeRects this) → ∃ g, g ∈ l' ∧ within f g.
Proof.
  unfold placeRect. rewrite placeRect_loop_returns.
  destruct (pruneFreeList_result (with_freeRects this (placed_free rect (freeRects this))))
    as (l' & Hrun & H).
  exists l'. split; [|exact H].
  unfold mbind, Outcome_bind. rewrite Hrun. reflexivity.
Qed.

Lemma insert_success this task r pk :
  insert this task = Returned (Some r, pk) →
  ∃ f, f ∈ freeRects this ∧
       qualifies (targetWidth task + padding this) (targetHeight task + padding this) f ∧
       r = PackedRect.mk (Rect.x f) (Rect.y f) (targetWidth task) (targetHeight task) task ∧
       placeRect this (Rect.mk (Rect.x f) (Rect.y f) (targetWidth task + padding this)
                         (targetHeight task + padding this)) = Returned pk.
Proof.
  unfold insert, findBestNode.
  destruct (findBestNode_fold (targetWidth task + padding this)
              (targetHeight task + padding this) (freeRects this))
    as [[-> _]|(i & f & (Hi & Hq & _) & ->)]; cbn [fst snd]; [discriminate|].
  intros ([pk' Hpk] & Heq)%bind_Returned. destruct Heq as [Hrun [= <- <-]].
  exists f. split; [by eapply list_elem_of_lookup_2|]. by split.
Qed.

(** ** Free cells and reserved cells of a page *)

Lemma pass_start_uncovered_free page_size pad :
  uncovered_free page_size pad (pass_start page_size pad).
Proof.
  intros px py Hx Hy _. exists (Rect.mk 0 0 page_size page_size).
  split; [by left|]. unfold covers. cbn. lia.
Qed.

Lemma insert_uncovered_free page_size pad st task r pk :
  padding (packer st) = pad →
  uncovered_free page_size pad st →
  insert (packer st) task = Returned (Some r, pk) →
  uncovered_free page_size pad
    {| packer := pk; pageItems := pageItems st ++ [r]; didntFit := didntFit st |}.
Proof.
  intros Hpad Hfree (f & Hf & _ & -> & Hplace)%insert_success px py Hx Hy Hun.
  cbn [packer pageItems] in *. rewrite Hpad in Hplace.
  set (u := Rect.mk (Rect.x f) (Rect.y f) (targetWidth task + pad) (targetHeight task + pad))
    in *.
  destruct (placeRect_result (packer st) u) as (l' & Hrun & _ & _ & Hcov).
  rewrite Hrun in Hplace. injection Hplace as <-. cbn [freeRects with_freeRects].
  destruct (Hfree px py Hx Hy) as (f0 & Hf0 & Hc0).
  { intros a Ha. apply Hun, elem_of_app. by left. }
  destruct (placed_free_covers u (freeRects (packer st)) f0 px py Hf0 Hc0)
    as (f' & Hf' & Hc').
  { apply (Hun (PackedRect.mk (Rect.x f) (Rect.y f) (targetWidth task) (targetHeight task)
                  task)).
    apply elem_of_app. right. by left. }
  destruct (Hcov f' Hf') as (g & Hg & Hw).
  exists g. split; [done|]. by eapply within_covers.
Qed.

Lemma insert_failure this task pk :
  insert this task = Returned (None, pk) →
  pk = this ∧
  Forall (λ f, ¬ qualifies (targetWidth task + padding this)
                           (targetHeight task + padding this) f) (freeRects this).
Proof.
  intros Hins.
  destruct (insert_cases this task) as [[Hnone Heq]|(i & f & l' & _ & _ & Heq)];
    rewrite Heq in Hins; [|discriminate].
  injection Hins as <-. by split.
Qed.

Lemma insert_still_unfit pad st task r pk :
  still_unfit pad st →
  insert (packer st) task = Returned (Some r, pk) →
  still_unfit pad
    {| packer := pk; pageItems := pageItems st ++ [r]; didntFit := didntFit st |}.
Proof.
  intros Hun (f & _ & _ & _ & Hplace)%insert_success t g Ht Hg [Hqw Hqh].
  cbn [packer didntFit] in *.
  destruct (placeRect_result (packer st) (Rect.mk (Rect.x f) (Rect.y f)
              (targetWidth task + padding (packer st))
              (targetHeight task + padding (packer st)))) as (l' & Hrun & Hsub & _).
  rewrite Hrun in Hplace. injection Hplace as <-. cbn [freeRects with_freeRects] in Hg.
  pose proof (placed_free_spec (Rect.mk (Rect.x f) (Rect.y f)
                (targetWidth task + padding (packer st))
                (targetHeight task + padding (packer st))) (freeRects (packer st))) as Hspec.
  rewrite Forall_forall in Hspec.
  destruct (Hspec g) as (_ & g0 & Hg0 & Hw); [by eapply elem_of_sublist|].
  apply (Hun t g0 Ht Hg0). unfold qualifies, within in *. lia.
Qed.

Lemma packPage_invariants page_size pad maxSize remaining : ∀ st st',
  pass_inv page_size pad st → uncovered_free page_size pad st → still_unfit pad st →
  packPage maxSize remaining st = Returned st' →
  uncovered_free page_size pad st' ∧ still_unfit pad st'.
Proof.
  induction remaining as [|task remaining IH]; intros st st' Hinv Hfree Hun Hrun;
    cbn [packPage] in Hrun.
  - injection Hrun as <-. by split.
  - destruct (oversized maxSize task); [by eapply IH|].
    apply bind_Returned in Hrun as ([rect pk] & Hins & Hrun).
    destruct rect as [rect|].
    + eapply IH; [| | |exact Hrun].
      * by eapply insert_inv.
      * eapply insert_uncovered_free; [by destruct Hinv|done..].
      * by eapply insert_still_unfit.
    + apply insert_failure in Hins as [-> Hnone].
      eapply IH; [| | |exact Hrun].
      * by destruct Hinv.
      * exact Hfree.
      * intros t f [Ht| ->%list_elem_of_singleton]%elem_of_app Hf; cbn [packer] in Hf.
        -- by apply Hun.
        -- rewrite Forall_forall in Hnone. destruct Hinv as [<- _ _ _ _]. by apply Hnone.
Qed.

(** X5.  At the end of a pass a cell of the page lies in a free node exactly when
    it lies in the space that no placement reserves: the free nodes cover
    all the space left, and nothing else. *)
Theorem free_nodes_cover_exactly_the_unreserved_cells page_size pad remaining :
  ∃ st,
    packPage page_size remaining (pass_start page_size pad) = Returned st ∧
    ∀ px py, 0 ≤ px < page_size → 0 ≤ py < page_size →
      ((∃ f, f ∈ MaxRectsPacker.freeRects (packer st) ∧ covers f px py) ↔
       ¬ ∃ a, a ∈ pageItems st ∧ covers (reserved pad a) px py).
Proof.
  destruct (packPage_returns page_size remaining (pass_start page_size pad)) as [st Hst].
  exists st. split; [done|].
  pose proof (packPage_inv page_size pad _ _ _ _ (pass_start_inv page_size pad) Hst) as Hinv.
  destruct (packPage_invariants page_size pad _ _ _ _ (pass_start_inv page_size pad)
              (pass_start_uncovered_free page_size pad)
              ltac:(by intros t f Ht%elem_of_nil) Hst) as [Hfree _].
  intros px py Hx Hy. split.
  - intros (f & Hf & Hc) (a & Ha & Hca).
    eapply apart_not_covers; [|exact Hc|exact Hca]. by apply (inv_free_apart _ _ _ Hinv).
  - intros Hno. apply (Hfree px py Hx Hy). intros a Ha Hc. apply Hno. by exists a.
Qed.

Lemma free_nodes_cover_exactly_the_unreserved_cells_witness :
  ∃ st,
    packPage 100 [item 40 70 "c"; item 60 60 "a"] (pass_start 100 2) = Returned st ∧
    ((∃ f, f ∈ MaxRectsPacker.freeRects (packer st) ∧ covers f 50 10) ↔
     ¬ ∃ a, a ∈ pageItems st ∧ covers (reserved 2 a) 50 10).
Proof.
  destruct (free_nodes_cover_exactly_the_unreserved_cells 100 2
              [item 40 70 "c"; item 60 60 "a"]) as (st & Hst & H).
  exists st. split; [exact Hst|]. apply H; lia.
Defined.

(** X6.  A task that did not fit during a pass does not fit at the end of the pass
    either: no free node of the page is wide and high enough for it, and
    [insert] would return [null] for it again. *)
Theorem unfit_tasks_stay_unfit page_size pad remaining :
  ∃ st,
    packPage page_size remaining (pass_start page_size pad) = Returned st ∧
    ∀ t, t ∈ didntFit st →
      (∀ f, f ∈ MaxRectsPacker.freeRects (packer st) →
            ¬ qualifies (targetWidth t + pad) (targetHeight t + pad) f) ∧
      MaxRectsPacker.insert (packer st) t = Returned (None, packer st).
Proof.
  destruct (packPage_returns page_size remaining (pass_start page_size pad)) as [st Hst].
  exists st. split; [done|].
  pose proof (packPage_inv page_size pad _ _ _ _ (pass_start_inv page_size pad) Hst) as Hinv.
  destruct (packPage_invariants page_size pad _ _ _ _ (pass_start_inv page_size pad)
              (pass_start_uncovered_free page_size pad)
              ltac:(by intros t f Ht%elem_of_nil) Hst) as [_ Hun].
  intros t Ht.
  assert (Hnone : ∀ f, f ∈ freeRects (packer st) →
                       ¬ qualifies (targetWidth t + pad) (targetHeight t + pad) f)
    by (intros f Hf; by apply Hun).
  split; [done|].
  destruct (insert_cases (packer st) t) as [[_ Heq]|(i & f & l' & (Hi & Hq & _) & _)];
    [done|].
  exfalso. apply (Hnone f); [by eapply list_elem_of_lookup_2|].
  by rewrite <- (inv_padding _ _ _ Hinv).
Qed.

Lemma unfit_tasks_stay_unfit_witness :
  ∃ st,
    packPage 100 [item 40 70 "c"; item 60 60 "a"] (pass_start 100 2) = Returned st ∧
    MaxRectsPacker.insert (packer st) (item 60 60 "a") = Returned (None, packer st).
Proof.
  destruct (unfit_tasks_stay_unfit 100 2 [item 40 70 "c"; item 60 60 "a"])
    as (st & Hst & H).
  exists st. split; [exact Hst|]. apply H.
  assert (Hrun : ∃ pk items, st = {| packer := pk; pageItems := items;
                                      didntFit := [item 60 60 "a"] |}).
  { vm_compute in Hst. injection Hst as <-. by eexists _, _. }
  destruct Hrun as (pk & items & ->). by left.
Defined.

(** ** The free list stays well formed *)

Lemma residues_positive f u :
  0 < Rect.width f ∧ 0 < Rect.height f →
  Forall (λ r, 0 < Rect.width r ∧ 0 < Rect.height r) (residues f u).
Proof.
  intros [Hw Hh]. unfold residues.
  split_ifs; bool_hyps; Forall_list; rect_simpl; lia.
Qed.

Lemma placed_free_positive u l :
  Forall (λ f, 0 < Rect.width f ∧ 0 < Rect.height f) l →
  Forall (λ f, 0 < Rect.width f ∧ 0 < Rect.height f) (placed_free u l).
Proof.
  intros Hl. rewrite Forall_forall in Hl. unfold placed_free. apply Forall_app_2.
  - apply Forall_forall. intros f [_ Hf]%list_elem_of_filter. by apply Hl.
  - apply Forall_forall. intros r Hr.
    apply list_elem_of_In, in_flat_map in Hr as (f & Hf & Hr).
    apply list_elem_of_In, list_elem_of_filter in Hf as [_ Hf].
    pose proof (residues_positive f u (Hl f Hf)) as H. rewrite Forall_forall in H.
    by apply H, list_elem_of_In.
Qed.

Lemma insert_proper page_size this task r pk :
  packer_proper page_size this →
  insert this task = Returned (r, pk) →
  packer_proper page_size pk.
Proof.
  intros Hprop Hins. destruct r as [r|].
  - apply insert_success in Hins as (f & _ & _ & _ & Hplace).
    destruct (placeRect_result this (Rect.mk (Rect.x f) (Rect.y f)
                (targetWidth task + padding this) (targetHeight task + padding this)))
      as (l' & Hrun & Hsub & Hnc & _).
    rewrite Hrun in Hplace. injection Hplace as <-.
    destruct Hprop as [Hw Hh Hp Hpos _]. split; cbn; try done.
    apply Forall_forall. intros g Hg.
    pose proof (placed_free_positive (Rect.mk (Rect.x f) (Rect.y f)
                  (targetWidth task + padding this) (targetHeight task + padding this))
                  _ Hpos) as H.
    rewrite Forall_forall in H. apply H. by eapply elem_of_sublist.
  - by apply insert_failure in Hins as [-> _].
Qed.

Lemma packPage_proper page_size maxSize remaining : ∀ st st',
  packer_proper page_size (packer st) →
  packPage maxSize remaining st = Returned st' →
  packer_proper page_size (packer st').
Proof.
  induction remaining as [|task remaining IH]; intros st st' Hprop Hrun;
    cbn [packPage] in Hrun.
  - by injection Hrun as <-.
  - destruct (oversized maxSize task); [by eapply IH|].
    apply bind_Returned in Hrun as ([rect pk] & Hins & Hrun).
    pose proof (insert_proper _ _ _ _ _ Hprop Hins) as Hpk.
    destruct rect as [rect|]; (eapply IH; [|exact Hrun]); exact Hpk.
Qed.

(** X7.  Throughout a pass on a page of positive size the packer stays well
    formed: it keeps its width and height, never writes [packedRects], and
    its free nodes lie in the page, have a positive width and height, and are
    not contained in one another. *)
Theorem packer_stays_well_formed page_size pad remaining :
  0 < page_size →
  ∃ st,
    packPage page_size remaining (pass_start page_size pad) = Returned st ∧
    MaxRectsPacker.width (packer st) = page_size ∧
    MaxRectsPacker.height (packer st) = page_size ∧
    MaxRectsPacker.padding (packer st) = pad ∧
    MaxRectsPacker.packedRects (packer st) = [] ∧
    (∀ f, f ∈ MaxRectsPacker.freeRects (packer st) →
       0 ≤ Rect.x f ∧ 0 ≤ Rect.y f ∧ 0 < Rect.width f ∧ 0 < Rect.height f ∧
       Rect.x f + Rect.width f ≤ page_size ∧ Rect.y f + Rect.height f ≤ page_size) ∧
    (∀ a b ra rb, a ≠ b →
       MaxRectsPacker.freeRects (packer st) !! a = Some ra →
       MaxRectsPacker.freeRects (packer st) !! b = Some rb →
       MaxRectsPacker.isContained ra rb = false).
Proof.
  intros HP.
  destruct (packPage_returns page_size remaining (pass_start page_size pad)) as [st Hst].
  exists st. split; [done|].
  pose proof (packPage_inv page_size pad _ _ _ _ (pass_start_inv page_size pad) Hst)
    as [Hpad Hin _ _ _].
  assert (Hstart : packer_proper page_size (packer (pass_start page_size pad))).
  { split; cbn; try done.
    - repeat constructor; cbn; lia.
    - intros a b ra rb Hab Ha Hb.
      destruct a as [|a]; [|by rewrite lookup_cons, lookup_nil in Ha].
      destruct b as [|b]; [done|]. by rewrite lookup_cons, lookup_nil in Hb. }
  destruct (packPage_proper page_size _ _ _ _ Hstart Hst) as [Hw Hh Hp Hpos Hnc].
  do 4 (split; [done|]). split; [|exact Hnc].
  intros f Hf. rewrite Forall_forall in Hin. rewrite Forall_forall in Hpos.
  pose proof (Hin f Hf) as H1. pose proof (Hpos f Hf) as H2.
  unfold in_page, within in H1. cbn in H1. lia.
Qed.

Lemma packer_stays_well_formed_witness :
  ∃ st,
    packPage 100 [item 40 70 "c"; item 60 60 "a"] (pass_start 100 2) = Returned st ∧
    MaxRectsPacker.packedRects (packer st) = [] ∧
    ∀ f, f ∈ MaxRectsPacker.freeRects (packer st) →
      0 < Rect.width f ∧ 0 < Rect.height f.
Proof.
  destruct (packer_stays_well_formed 100 2 [item 40 70 "c"; item 60 60 "a"])
    as (st & Hst & _ & _ & _ & Hp & Hf & _); [lia|].
  exists st. split; [exact Hst|]. split; [exact Hp|].
  intros f Hin. destruct (Hf f Hin) as (_ & _ & ? & ? & _). by split.
Defined.

(** ** Padding between placements *)

(** X8.  Two placements of a page are a padding apart along one axis at least,
    and every placement keeps a padding free to the right and below, inside
    the page; this holds for every padding, negative ones too. *)
Theorem placements_keep_their_padding tasks page_size pad :
  ∃ pages,
    packAtlases tasks page_size pad = Returned pages ∧
    ∀ page, page ∈ pages →
      (∀ i j a b, i ≠ j →
         AtlasPage.items page !! i = Some a → AtlasPage.items page !! j = Some b →
         PackedRect.x a + PackedRect.w a + pad ≤ PackedRect.x b ∨
         PackedRect.x b + PackedRect.w b + pad ≤ PackedRect.x a ∨
         PackedRect.y a + PackedRect.h a + pad ≤ PackedRect.y b ∨
         PackedRect.y b + PackedRect.h b + pad ≤ PackedRect.y a) ∧
      (∀ a, a ∈ AtlasPage.items page →
         0 ≤ PackedRect.x a ∧ 0 ≤ PackedRect.y a ∧
         PackedRect.x a + PackedRect.w a + pad ≤ page_size ∧
         PackedRect.y a + PackedRect.h a + pad ≤ page_size).
Proof.
  destruct (packAtlases_passes tasks page_size pad) as (pages & console & Hrun & Hp).
  exists pages. split; [done|].
  apply passes_pages in Hp. rewrite Forall_forall in Hp.
  intros page (attempted & st & k & _ & Hst & ->)%Hp.
  cbn [AtlasPage.items page_of].
  pose proof (packPage_inv page_size pad _ _ _ _ (pass_start_inv page_size pad) Hst)
    as [_ _ _ Hia Hip].
  split.
  - intros i j a b Hij Ha Hb.
    destruct (decide (i < j)%nat).
    + pose proof (Hia i j a b ltac:(lia) Ha Hb) as H. unfold apart, reserved in H.
      cbn in H. lia.
    + pose proof (Hia j i b a ltac:(lia) Hb Ha) as H. unfold apart, reserved in H.
      cbn in H. lia.
  - rewrite Forall_forall in Hip. intros a Ha.
    pose proof (Hip a Ha) as H. unfold in_page, within, reserved in H. cbn in H. lia.
Qed.

(** ** The list of pages *)

Lemma passes_ids maxSize pad remaining idx pages console :
  passes maxSize pad remaining idx pages console →
  ∀ k page, pages !! k = Some page →
    AtlasPage.id page = idx + Z.of_nat k ∧
    AtlasPage.width page = maxSize ∧ AtlasPage.height page = maxSize.
Proof.
  induction 1 as [idx|remaining idx st Hne Hst Hz Hl
                  |remaining idx st pages console Hne Hst Hns Hp IH]; intros k page Hk.
  - by rewrite lookup_nil in Hk.
  - destruct k as [|k]; [|by rewrite lookup_cons, lookup_nil in Hk].
    injection Hk as <-. cbn. split; [lia|done].
  - destruct k as [|k].
    + injection Hk as <-. cbn. split; [lia|done].
    + destruct (IH k page Hk) as (-> & ? & ?). split; [lia|done].
Qed.

Lemma passes_lengths maxSize pad remaining idx pages console :
  passes maxSize pad remaining idx pages console →
  (length pages ≤ length remaining)%nat ∧ (length console ≤ 1)%nat ∧
  (console ≠ [] → ∃ page, last pages = Some page ∧ AtlasPage.items page = []).
Proof.
  induction 1 as [idx|remaining idx st Hne Hst Hz Hl
                  |remaining idx st pages console Hne Hst Hns Hp IH].
  - split; [done|]. split; [cbn; lia|done].
  - split; [destruct remaining; [done|cbn; lia]|]. split; [done|].
    intros _. eexists. split; [done|]. by rewrite Hz.
  - destruct IH as (Hlen & Hc & Hlast).
    pose proof (didntFit_shorter _ _ _ _ Hst Hns).
    split; [cbn [length]; lia|]. split; [done|].
    intros Hw. destruct (Hlast Hw) as (page & Hpage & Hempty).
    exists page. split; [|done].
    destruct pages; [done|]. by rewrite last_cons, Hpage.
Qed.

(** X9.  The pages are numbered from 0 in the order of the list, each is
    [maxSize] wide and high, there are at most as many pages as tasks, and at
    most one stall warning, which comes with an empty last page. *)
Theorem pages_are_numbered_and_bounded tasks page_size pad :
  ∃ pages console,
    packAtlases_run tasks page_size pad = Returned (pages, console) ∧
    (∀ k page, pages !! k = Some page →
       AtlasPage.id page = Z.of_nat k ∧
       AtlasPage.width page = page_size ∧ AtlasPage.height page = page_size) ∧
    (length pages ≤ length tasks)%nat ∧
    (length console ≤ 1)%nat ∧
    (console ≠ [] → ∃ page, last pages = Some page ∧ AtlasPage.items page = []).
Proof.
  destruct (packAtlases_run_passes tasks page_size pad) as (pages & console & Hrun & Hp).
  exists pages, console. split; [done|]. split.
  - intros k page Hk. destruct (passes_ids _ _ _ _ _ _ Hp k page Hk) as (-> & ? & ?).
    split; [lia|done].
  - destruct (passes_lengths _ _ _ _ _ _ Hp) as (Hlen & ? & ?).
    rewrite (js_sort_perm byHeightDesc tasks) in Hlen. done.
Qed.

Lemma passes_without_oversized maxSize pad remaining idx pages console :
  passes maxSize pad remaining idx pages console →
  Forall (λ t, oversized maxSize t = false) remaining →
  ∀ k page, pages !! k = Some page → AtlasPage.items page = [] →
    S k = length pages ∧ console ≠ [].
Proof.
  induction 1 as [idx|remaining idx st Hne Hst Hz Hl
                  |remaining idx st pages console Hne Hst Hns Hp IH];
    intros Hnov k page Hk Hempty.
  - by rewrite lookup_nil in Hk.
  - destruct k as [|k]; [done|]. by rewrite lookup_cons, lookup_nil in Hk.
  - pose proof Hst as (_ & Hsub & Hperm & _ & Hnov')%packPage_start.
    destruct k as [|k].
    + injection Hk as <-. cbn [AtlasPage.items page_of] in Hempty.
      exfalso. apply Hns. split; [done|].
      rewrite Hempty, (filter_none _ remaining), app_nil_r in Hperm.
      2:{ eapply Forall_impl; [exact Hnov|]. cbn beta. congruence. }
      by rewrite <- Hperm.
    + destruct (IH Hnov' k page Hk Hempty) as [Hlen Hw]. split; [|done].
      cbn [length]. lia.
Qed.

(** X10.  An empty page is the first or the last page of the list.  When no task
    is oversized it is the last page, and the stall warning was given. *)
Theorem empty_pages_are_first_or_last tasks page_size pad :
  ∃ pages console,
    packAtlases_run tasks page_size pad = Returned (pages, console) ∧
    (∀ k page, pages !! k = Some page → AtlasPage.items page = [] →
       k = 0%nat ∨ S k = length pages) ∧
    ((∀ t, t ∈ tasks → targetWidth t ≤ page_size ∧ targetHeight t ≤ page_size) →
     ∀ k page, pages !! k = Some page → AtlasPage.items page = [] →
       S k = length pages ∧ console ≠ []).
Proof.
  destruct (packAtlases_run_passes tasks page_size pad) as (pages & console & Hrun & Hp).
  exists pages, console. split; [done|]. split.
  - intros k page Hk Hempty. destruct k as [|k]; [by left|]. right.
    inversion Hp as [idx|remaining idx st Hne Hst Hz Hl
                     |remaining idx st pages' console' Hne Hst Hns Hp']; subst.
    + by rewrite lookup_nil in Hk.
    + by rewrite lookup_cons, lookup_nil in Hk.
    + pose proof Hst as (_ & _ & _ & _ & Hnov')%packPage_start.
      destruct (passes_without_oversized _ _ _ _ _ _ Hp' Hnov' k page Hk Hempty) as [Hl _].
      cbn [length]. lia.
  - intros Hfit. eapply passes_without_oversized; [exact Hp|].
    rewrite js_sort_perm. apply Forall_forall. intros t Ht.
    apply oversized_false. by apply Hfit.
Qed.

Lemma empty_pages_are_first_or_last_witness :
  ∃ pages console,
    packAtlases_run [item 200 200 "a"; item 10 10 "b"] 200 2 = Returned (pages, console) ∧
    ∀ k page, pages !! k = Some page → AtlasPage.items page = [] →
      S k = length pages ∧ console ≠ [].
Proof.
  destruct (empty_pages_are_first_or_last [item 200 200 "a"; item 10 10 "b"] 200 2)
    as (pages & console & Hrun & _ & H).
  exists pages, console. split; [exact Hrun|]. apply H.
  intros t Ht. repeat (apply elem_of_cons in Ht as [-> | Ht]); [cbn; lia..|].
  by apply elem_of_nil in Ht.
Defined.

Lemma conservation_when_padding_fits_witness :
  ∃ pages,
    packAtlases_run [item 60 60 "a"; item 50 50 "b"; item 40 70 "c"] 100 2
      = Returned (pages, []) ∧
    placed_tasks pages ≡ₚ [item 60 60 "a"; item 50 50 "b"; item 40 70 "c"].
Proof.
  apply (conservation_when_padding_fits
           [item 60 60 "a"; item 50 50 "b"; item 40 70 "c"] 100 2); [lia|].
  intros t Ht. repeat (apply elem_of_cons in Ht as [-> | Ht]); [cbn; lia..|].
  by apply elem_of_nil in Ht.
Defined.

(** * The preview modal *)

Lemma filter_fmap {A B} (f : A → B) (P : B → Prop) `{∀ y, Decision (P y)} (l : list A) :
  filter P (f <$> l) = f <$> filter (λ x, P (f x)) l.
Proof.
  induction l as [|x l IH]; [done|].
  rewrite fmap_cons, !filter_cons, IH. cbn beta. by destruct (decide (P (f x))).
Qed.

(** X13.  The assets that the modal lists as exceeding the atlas size are the
    tasks that the packer skips: every other asset is placed on a page of the
    preview or named in the stall warning, and no listed asset is placed. *)
Theorem preview_lists_the_skipped_assets tasks maxSize isOptimized :
  ∃ pages console,
    previewPack tasks maxSize isOptimized = Returned (pages, console) ∧
    placed_tasks pages ++ dropped_tasks console ++
      packerTasks (oversizedAssets tasks maxSize isOptimized) isOptimized
      ≡ₚ packerTasks tasks isOptimized ∧
    (length (placed_tasks pages) + length (dropped_tasks console) +
       length (oversizedAssets tasks maxSize isOptimized) = length tasks)%nat ∧
    ∀ t page a,
      t ∈ packerTasks (oversizedAssets tasks maxSize isOptimized) isOptimized →
      page ∈ pages → a ∈ AtlasPage.items page → PackedRect.task a ≠ t.
Proof.
  unfold previewPack.
  destruct (packAtlases_run_passes (packerTasks tasks isOptimized) maxSize 2)
    as (pages & console & Hrun & Hp).
  exists pages, console. split; [done|].
  assert (Hov : packerTasks (oversizedAssets tasks maxSize isOptimized) isOptimized =
                filter (λ t, oversized maxSize t = true) (packerTasks tasks isOptimized)).
  { unfold packerTasks, oversizedAssets. by rewrite filter_fmap. }
  assert (Hperm : placed_tasks pages ++ dropped_tasks console ++
                    packerTasks (oversizedAssets tasks maxSize isOptimized) isOptimized
                    ≡ₚ packerTasks tasks isOptimized).
  { rewrite Hov. pose proof (passes_conservation _ _ _ _ _ _ Hp) as H.
    rewrite <- (js_sort_perm byHeightDesc (packerTasks tasks isOptimized)) at 2.
    rewrite <- (js_sort_perm byHeightDesc (packerTasks tasks isOptimized)) at 1. done. }
  split; [done|]. split.
  - apply Permutation_length in Hperm.
    rewrite !length_app in Hperm. unfold packerTasks in Hperm at 1 2.
    rewrite !length_fmap in Hperm. lia.
  - intros t page a Ht Hpage Ha Heq. rewrite Hov in Ht.
    apply list_elem_of_filter in Ht as [Ht _].
    apply passes_pages in Hp. rewrite Forall_forall in Hp.
    destruct (Hp page Hpage) as (attempted & st & i & _ & Hst & ->).
    apply packPage_start in Hst as (_ & _ & _ & Hrec & _).
    rewrite Forall_forall in Hrec. destruct (Hrec a Ha) as (Hnov & _). congruence.
Qed.

Lemma find_the_only_hit {A} (f : A → bool) (l : list A) a :
  (∀ i j x y, i ≠ j → l !! i = Some x → l !! j = Some y → f x = true → f y = true → False) →
  a ∈ l → f a = true → List.find f l = Some a.
Proof.
  induction l as [|b l IH]; intros Honly Ha Hfa; [by apply elem_of_nil in Ha|].
  cbn [List.find]. destruct (f b) eqn:Hfb.
  - apply elem_of_cons in Ha as [->|Ha]; [done|].
    apply list_elem_of_lookup_1 in Ha as [j Hj].
    exfalso. by apply (Honly 0%nat (S j) b a).
  - apply elem_of_cons in Ha as [->|Ha]; [congruence|].
    apply IH; [|done..].
    intros i j x y Hij Hx Hy. apply (Honly (S i) (S j) x y); [lia|done..].
Qed.

Lemma hit_spec cx cy a :
  hit cx cy a = true ↔
  (inject_Z (PackedRect.x a) <= cx)%Q ∧
  (cx <= inject_Z (PackedRect.x a + PackedRect.w a))%Q ∧
  (inject_Z (PackedRect.y a) <= cy)%Q ∧
  (cy <= inject_Z (PackedRect.y a + PackedRect.h a))%Q.
Proof. unfold hit. rewrite !andb_true_iff, !Qle_bool_iff. tauto. Qed.

Lemma hits_exclude cx cy pad a b :
  0 < pad → apart (reserved pad a) (reserved pad b) →
  hit cx cy a = true → hit cx cy b = true → False.
Proof.
  intros Hpad Hap (Hax & Hax' & Hay & Hay')%hit_spec (Hbx & Hbx' & Hby & Hby')%hit_spec.
  unfold apart, reserved in Hap. cbn in Hap.
  destruct Hap as [H|[H|[H|H]]].
  - apply (Qlt_irrefl cx). eapply Qle_lt_trans; [exact Hax'|].
    eapply Qlt_le_trans; [|exact Hbx]. rewrite <- Zlt_Qlt. lia.
  - apply (Qlt_irrefl cx). eapply Qle_lt_trans; [exact Hbx'|].
    eapply Qlt_le_trans; [|exact Hax]. rewrite <- Zlt_Qlt. lia.
  - apply (Qlt_irrefl cy). eapply Qle_lt_trans; [exact Hay'|].
    eapply Qlt_le_trans; [|exact Hby]. rewrite <- Zlt_Qlt. lia.
  - apply (Qlt_irrefl cy). eapply Qle_lt_trans; [exact Hby'|].
    eapply Qlt_le_trans; [|exact Hay]. rewrite <- Zlt_Qlt. lia.
Qed.

(** X14.  On a page packed with a positive padding, as the preview does with
    padding 2, a point of the canvas is on one placement at most, borders
    included: [find] returns the placement under the pointer, whichever its
    place in the list, and [undefined] only when the pointer is on none. *)
Theorem pointer_finds_the_placement_under_it tasks page_size pad :
  0 < pad →
  ∃ pages,
    packAtlases tasks page_size pad = Returned pages ∧
    ∀ page canvasX canvasY, page ∈ pages →
      (∀ a, a ∈ AtlasPage.items page → hit canvasX canvasY a = true →
            found (AtlasPage.items page) canvasX canvasY = Some a) ∧
      (found (AtlasPage.items page) canvasX canvasY = None →
       ∀ a, a ∈ AtlasPage.items page → hit canvasX canvasY a = false).
Proof.
  intros Hpad.
  destruct (packAtlases_passes tasks page_size pad) as (pages & console & Hrun & Hp).
  exists pages. split; [done|].
  apply passes_pages in Hp. rewrite Forall_forall in Hp.
  intros page cx cy (attempted & st & k & _ & Hst & ->)%Hp.
  cbn [AtlasPage.items page_of].
  pose proof (packPage_inv page_size pad _ _ _ _ (pass_start_inv page_size pad) Hst)
    as [_ _ _ Hia _].
  split.
  - intros a Ha Hhit. apply find_the_only_hit; [|done..].
    intros i j x y Hij Hx Hy Hfx Hfy.
    destruct (decide (i < j)%nat).
    + eapply (hits_exclude cx cy pad x y); [done| |done..]. eapply Hia; [|done..]. lia.
    + eapply (hits_exclude cx cy pad y x); [done| |done..]. eapply (Hia j i); [|done..]. lia.
  - intros Hnone a Ha. eapply find_none; [exact Hnone|]. by apply list_elem_of_In.
Qed.

Lemma pointer_finds_the_placement_under_it_witness :
  ∃ pages,
    packAtlases [item 100 100 "a"; item 100 100 "b"] 256 2 = Returned pages ∧
    ∀ page canvasX canvasY, page ∈ pages →
      (∀ a, a ∈ AtlasPage.items page → hit canvasX canvasY a = true →
            found (AtlasPage.items page) canvasX canvasY = Some a) ∧
      (found (AtlasPage.items page) canvasX canvasY = None →
       ∀ a, a ∈ AtlasPage.items page → hit canvasX canvasY a = false).
Proof.
  apply (pointer_finds_the_placement_under_it [item 100 100 "a"; item 100 100 "b"] 256 2).
  lia.
Defined.

(** ** Pagination *)





(** ** The order of the input *)

(** X12.  The pages depend on the order of the input only through the order of
    the tasks of equal height: two inputs in which the tasks of each height
    come in the same order are packed alike. *)
Theorem packing_depends_on_order_among_equal_heights tasks tasks' page_size pad :
  (∀ k, filter (λ t, targetHeight t = k) tasks = filter (λ t, targetHeight t = k) tasks') →
  packAtlases_run tasks page_size pad = packAtlases_run tasks' page_size pad ∧
  packAtlases tasks page_size pad = packAtlases tasks' page_size pad.
Proof.
  intros Hsame.
  assert (Hs : js_sort byHeightDesc tasks = js_sort byHeightDesc tasks').
  { apply js_sort_is_the_stable_sort; [apply js_sort_sorted|].
    intros k. by rewrite js_sort_stable. }
  unfold packAtlases, packAtlases_run. by rewrite Hs.
Qed.

Lemma packing_depends_on_order_among_equal_heights_witness :
  packAtlases [item 30 10 "a"; item 30 20 "b"; item 5 10 "c"] 64 2 =
  packAtlases [item 30 20 "b"; item 30 10 "a"; item 5 10 "c"] 64 2.
Proof.
  apply (packing_depends_on_order_among_equal_heights
           [item 30 10 "a"; item 30 20 "b"; item 5 10 "c"]
           [item 30 20 "b"; item 30 10 "a"; item 5 10 "c"] 64 2).
  intros k. rewrite !filter_cons, !filter_nil. cbn [targetHeight item].
  repeat case_decide; try done; lia.
Defined.
